(** * OpenShift init plugin (internal/plugins/openshift/v1/init.go)

    A shallow embedding of the image/version substitution step that the
    OpenShift plugin runs after [init], and the properties it satisfies.

    - File contents are byte strings ([list byte]), as [afero.ReadFile]
      returns them and [regexp.ReplaceAll] rewrites them.
    - The eight patterns of [imageSubstitutions] are compiled from their
      source text by [MustCompile]; each is a sequence of one-rune atoms
      followed by one negated class under [+].
    - The filesystem is an in-memory map with fault injection, the world
      is threaded through a small state-and-error monad, and every call on
      a collaborator is logged so that ordering claims can be stated. *)

From Stdlib Require Import Strings.String Strings.Byte NArith Lia.
From stdpp Require Import base option list gmap strings.

Local Open Scope string_scope.
Local Open Scope list_scope.

(** ** Bytes and runes *)

Abbreviation bytes := (list byte).

(** A Go string literal as the bytes it denotes. *)
Definition B (s : string) : bytes := list_byte_of_string s.

Definition nl : byte := x0a.
Definition sp : byte := x20.

Definition byte_in (lo hi : N) (b : byte) : bool :=
  N.leb lo (Byte.to_N b) && N.leb (Byte.to_N b) hi.

(** [utf8.RuneSelf]: bytes below 0x80 are runes of their own. *)
Definition is_ascii (b : byte) : bool := N.ltb (Byte.to_N b) 128%N.

(** Continuation bytes, [locb..hicb] of package utf8. *)
Definition is_cont (b : byte) : bool := byte_in 128%N 191%N b.

(** The [first] table of package utf8 joined with [acceptRanges]: for a
    leading byte, the size of the encoding and the range allowed for the
    second byte; [None] for ASCII and for invalid leading bytes, which
    both decode with width 1. *)
Definition utf8_first (b : byte) : option (nat * (N * N)) :=
  let n := Byte.to_N b in
  (if N.ltb n 194 then None                       (* 00..7F as, 80..C1 xx *)
  else if N.leb n 223 then Some (2%nat, (128, 191))  (* C2..DF s1 *)
  else if N.eqb n 224 then Some (3%nat, (160, 191))  (* E0 s2 *)
  else if N.eqb n 237 then Some (3%nat, (128, 159))  (* ED s4 *)
  else if N.leb n 239 then Some (3%nat, (128, 191))  (* E1..EC, EE, EF s3 *)
  else if N.eqb n 240 then Some (4%nat, (144, 191))  (* F0 s5 *)
  else if N.leb n 243 then Some (4%nat, (128, 191))  (* F1..F3 s6 *)
  else if N.eqb n 244 then Some (4%nat, (128, 143))  (* F4 s7 *)
  else None)%N.                                  (* F5..FF xx *)

(** The width that [utf8.DecodeRune] reports: 0 on empty input, 1 for
    ASCII and for every invalid or truncated encoding (the rune is then
    [RuneError]), otherwise the size of the encoding. *)
Definition rune_width (p : bytes) : nat :=
  match p with
  | [] => 0
  | p0 :: q =>
      match utf8_first p0 with
      | None => 1
      | Some (sz, (lo, hi)) =>
          match q with
          | [] => 1
          | b1 :: q1 =>
              if negb (byte_in lo hi b1) then 1
              else if Nat.leb sz 2 then 2
              else match q1 with
                   | [] => 1
                   | b2 :: q2 =>
                       if negb (is_cont b2) then 1
                       else if Nat.leb sz 3 then 3
                       else match q2 with
                            | [] => 1
                            | b3 :: _ => if negb (is_cont b3) then 1 else 4
                            end
                   end
          end
      end
  end.

(** ** Regular expressions of the table

    [atom] is an instruction that consumes one rune; a [regex] is a
    sequence of atoms followed by [[^excl]+]. *)

Inductive atom : Type :=
  | Lit (c : byte)     (* a literal ASCII byte *)
  | AnyNotNL.          (* [.]: any rune but newline *)

Record regex : Type := Regex {
  re_prefix : list atom;
  re_excl : bytes
}.

(** The members of a negated class; the only escape the table uses
    is [\n]. The class must be closed by [']'] and followed by ['+'] at
    the end of the pattern. *)
Fixpoint parse_class (fuel : nat) (p : bytes) (acc : bytes) : option bytes :=
  match fuel with
  | O => None
  | S fuel' =>
      match p with
      | "]"%byte :: "+"%byte :: [] => Some (rev acc)
      | "\"%byte :: "n"%byte :: p' => parse_class fuel' p' (nl :: acc)
      | "\"%byte :: _ => None
      | "]"%byte :: _ => None
      | c :: p' => if is_ascii c then parse_class fuel' p' (c :: acc) else None
      | [] => None
      end
  end.

Fixpoint parse_regex (p : bytes) (acc : list atom) : option regex :=
  match p with
  | [] => None
  | "["%byte :: "^"%byte :: p' =>
      match parse_class (S (length p')) p' [] with
      | Some (c :: cs) => Some (Regex (rev acc) (c :: cs))
      | _ => None
      end
  | "."%byte :: p' => parse_regex p' (AnyNotNL :: acc)
  | c :: p' =>
      if is_ascii c && negb (existsb (Byte.eqb c) (B "\[]()*+?{}|^$"))
      then parse_regex p' (Lit c :: acc) else None
  end.

Definition compile (pattern : string) : option regex :=
  parse_regex (B pattern) [].

(** [regexp.MustCompile] panics on a pattern that does not parse; the
    table is built at package initialisation, so a panic there means no
    table at all. The fallback below is never reached for the table. *)
Definition MustCompile (pattern : string) : regex :=
  match compile pattern with
  | Some re => re
  | None => Regex [] []
  end.

Definition excluded (re : regex) (b : byte) : bool :=
  existsb (Byte.eqb b) (re_excl re).

(** The atoms, one rune at a time: what is left of the input once the
    prefix has matched at its head. *)
Fixpoint match_prefix (p : list atom) (s : bytes) : option bytes :=
  match p with
  | [] => Some s
  | Lit c :: p' =>
      match s with
      | b :: s' => if Byte.eqb b c then match_prefix p' s' else None
      | [] => None
      end
  | AnyNotNL :: p' =>
      match s with
      | b :: _ =>
          if Byte.eqb b nl then None
          else match_prefix p' (drop (rune_width s) s)
      | [] => None
      end
  end.

(** The greedy class: the input from the first excluded byte on. The
    excluded bytes are ASCII, and no byte of a multi-byte encoding is, so
    skipping byte by byte stops where skipping rune by rune does. *)
Fixpoint skip_class (excl : bytes) (s : bytes) : bytes :=
  match s with
  | [] => []
  | b :: s' => if existsb (Byte.eqb b) excl then s else skip_class excl s'
  end.

Definition match_class (excl : bytes) (s : bytes) : option bytes :=
  match s with
  | [] => None
  | b :: s' => if existsb (Byte.eqb b) excl then None else Some (skip_class excl s')
  end.

(** A suffix of the prefix followed by the class. *)
Definition matchp (p : list atom) (excl : bytes) (s : bytes) : option bytes :=
  match match_prefix p s with
  | Some s1 => match_class excl s1
  | None => None
  end.

(** The match that starts at the head of the input, if any: the input
    that follows it. The prefix takes one rune per atom and the class is
    greedy, so this is the match leftmost-first semantics selects. *)
Definition match_at (re : regex) (s : bytes) : option bytes :=
  matchp (re_prefix re) (re_excl re) s.

(** [Regexp.ReplaceAll] for a template without [$]: the loop copies the
    input up to the next match, appends the replacement and resumes
    right after the match. No pattern here matches the empty string, so
    the search position always moves to the end of the match. *)
Fixpoint replaceAll_loop (fuel : nat) (re : regex) (repl src : bytes) : bytes :=
  match fuel with
  | O => src
  | S fuel' =>
      match src with
      | [] => []
      | b :: src' =>
          match match_at re src with
          | Some rest => repl ++ replaceAll_loop fuel' re repl rest
          | None => b :: replaceAll_loop fuel' re repl src'
          end
      end
  end.

Definition ReplaceAll (re : regex) (src repl : bytes) : bytes :=
  replaceAll_loop (length src) re repl src.

(** ** The substitution table *)

Definition ocpProductVersion : string := "4.14".
Definition ubiMinimalVersion : string := "8.8".

Record substitution : Type := Substitution {
  fromTagRE : regex;
  toTag : string
}.

(** [filepath.Join] on clean, non-empty elements with the POSIX separator. *)
Definition filepath_Join (elems : list string) : string :=
  String.concat "/" elems.

Definition imageSubstitutions : list (string * list substitution) :=
  [ (filepath_Join ["config"; "default"; "manager_auth_proxy_patch.yaml"],
      [ Substitution
          (MustCompile "gcr.io/kubebuilder/kube-rbac-proxy:[^ \n]+")
          ("registry.redhat.io/openshift4/ose-kube-rbac-proxy:v" ++ ocpProductVersion) ]);
    (filepath_Join ["Dockerfile"],
      [ Substitution
          (MustCompile "quay.io/operator-framework/ansible-operator:[^ \n]+")
          ("registry.redhat.io/openshift4/ose-ansible-operator:v" ++ ocpProductVersion);
        Substitution
          (MustCompile "quay.io/operator-framework/helm-operator:[^ \n]+")
          ("registry.redhat.io/openshift4/ose-helm-operator:v" ++ ocpProductVersion);
        Substitution
          (MustCompile "gcr.io/distroless/static:[^ \n]+")
          ("registry.access.redhat.com/ubi8/ubi-minimal:" ++ ubiMinimalVersion);
        Substitution
          (MustCompile "golang:[^ \n]+")
          "golang:1.20";
        Substitution
          (MustCompile "registry.access.redhat.com/ubi8/ubi-micro:[^ \n]+")
          ("registry.access.redhat.com/ubi8/ubi-micro:" ++ ubiMinimalVersion) ]);
    (filepath_Join ["go.mod"],
      [ Substitution
          (MustCompile "golang.org/x/net [^ \n]+")
          "golang.org/x/net v0.17.0";
        Substitution
          (MustCompile "go 1.[^2\n]+")
          "go 1.20" ]) ].

(** ** Errors

    The Go [error] values that cross this file: what the filesystem and
    the configuration store return, and what [fmt.Errorf] builds. *)

Inductive error : Type :=
  | PathError (op path cause : string)           (* [*os.PathError] *)
  | Errno (msg : string)                         (* [syscall.Errno] and other path-less I/O errors *)
  | UnsupportedFieldError (version field : string) (* [config.UnsupportedFieldError] *)
  | WrapError (msg : string) (inner : error)     (* any error whose [Unwrap] returns [inner] *)
  | ErrorString (msg : string).                  (* [fmt.Errorf] without [%w] *)

(** The [Error()] method. *)
Definition Error (e : error) : string :=
  match e with
  | PathError op path cause => op ++ " " ++ path ++ ": " ++ cause
  | Errno msg => msg
  | UnsupportedFieldError version field =>
      "version " ++ version ++ " does not support the " ++ field ++ " field"
  | WrapError msg _ => msg
  | ErrorString msg => msg
  end.

(** [errors.As(err, &config.UnsupportedFieldError{})]: walks the
    [Unwrap] chain for a value of that type. *)
Fixpoint errors_As_UnsupportedFieldError (e : error) : bool :=
  match e with
  | UnsupportedFieldError _ _ => true
  | WrapError _ inner => errors_As_UnsupportedFieldError inner
  | _ => false
  end.

(** ** The filesystem

    [afero.Fs] as an in-memory map from paths to files. [fs_fault] makes
    an operation on a path fail with an error of the backing store
    (permission denied, read-only filesystem, I/O error) and leaves the
    files as they are. *)

Inductive fsop : Type := OpRead | OpStat | OpWrite.

Record file : Type := File {
  f_data : bytes;
  f_mode : N      (* [os.FileMode] *)
}.

Record Fs : Type := MkFs {
  fs_files : gmap string file;
  fs_fault : fsop -> string -> option error
}.

Definition ErrFileNotFound : string := "file does not exist".

(** [afero.ReadFile]. *)
Definition fs_ReadFile (fs : Fs) (name : string) : error + bytes :=
  match fs_fault fs OpRead name with
  | Some e => inl e
  | None =>
      match fs_files fs !! name with
      | Some f => inr (f_data f)
      | None => inl (PathError "open" name ErrFileNotFound)
      end
  end.

(** [Fs.Stat] followed by [FileInfo.Mode]. *)
Definition fs_Stat (fs : Fs) (name : string) : error + N :=
  match fs_fault fs OpStat name with
  | Some e => inl e
  | None =>
      match fs_files fs !! name with
      | Some f => inr (f_mode f)
      | None => inl (PathError "stat" name ErrFileNotFound)
      end
  end.

(** [afero.WriteFile]: opens with [O_WRONLY|O_CREATE|O_TRUNC]; [perm]
    applies only when the file is created. *)
Definition fs_WriteFile (fs : Fs) (name : string) (data : bytes) (perm : N)
  : error + Fs :=
  match fs_fault fs OpWrite name with
  | Some e => inl e
  | None =>
      let m := match fs_files fs !! name with
               | Some f => f_mode f
               | None => perm
               end in
      inr (MkFs (<[name := File data m]> (fs_files fs)) (fs_fault fs))
  end.

(** ** The configuration store

    [config.Config] is an interface of the host; the step calls one of
    its methods. *)

(** The plugin's own configuration, [Config{}]: no fields. *)
Inductive Config : Type := MkConfig.

Class config_Config (C : Type) : Type := {
  EncodePluginConfig : string -> Config -> C -> C * option error
}.

(** ** The world and its monad *)

Inductive event : Type :=
  | CallReadFile (name : string)
  | CallStat (name : string)
  | CallWriteFile (name : string) (data : bytes) (perm : N)
  | CallEncodePluginConfig (key : string) (ret : option error).

Record World (C : Type) : Type := MkWorld {
  w_fs : Fs;
  w_config : C;
  w_log : list event      (* oldest call first *)
}.
Arguments MkWorld {C} _ _ _.
Arguments w_fs {C} _.
Arguments w_config {C} _.
Arguments w_log {C} _.

Definition M (C A : Type) : Type := World C -> World C * (error + A).

Definition ret {C A} (a : A) : M C A := fun w => (w, inr a).
Definition fail {C A} (e : error) : M C A := fun w => (w, inl e).
Definition bind {C A A'} (m : M C A) (k : A -> M C A') : M C A' :=
  fun w => match m w with
           | (w', inr a) => k a w'
           | (w', inl e) => (w', inl e)
           end.
(** [if err != nil { return f(err) }] *)
Definition on_error {C A} (f : error -> error) (m : M C A) : M C A :=
  fun w => match m w with
           | (w', inl e) => (w', inl (f e))
           | r => r
           end.

Notation "x <- m ;; k" := (bind m (fun x => k))
  (at level 100, m at next level, right associativity).
Notation "m ;;; k" := (bind m (fun _ => k))
  (at level 100, k at level 200, right associativity).

Definition log {C} (ev : event) (w : World C) : World C :=
  MkWorld (w_fs w) (w_config w) (w_log w ++ [ev]).

Definition ReadFile {C} (name : string) : M C bytes :=
  fun w => (log (CallReadFile name) w, fs_ReadFile (w_fs w) name).

Definition Stat {C} (name : string) : M C N :=
  fun w => (log (CallStat name) w, fs_Stat (w_fs w) name).

Definition WriteFile {C} (name : string) (data : bytes) (perm : N) : M C unit :=
  fun w =>
    let w1 := log (CallWriteFile name data perm) w in
    match fs_WriteFile (w_fs w) name data perm with
    | inr fs' => (MkWorld fs' (w_config w1) (w_log w1), inr tt)
    | inl e => (w1, inl e)
    end.

Definition encodePluginConfig `{config_Config C} (key : string) (obj : Config)
  : M C (option error) :=
  fun w =>
    let '(c', r) := EncodePluginConfig key obj (w_config w) in
    (MkWorld (w_fs w) c' (w_log w ++ [CallEncodePluginConfig key r]), inr r).

(** ** The step *)

(** The inner loop of [replaceImages]: the rules of one file, in list
    order, each on the output of the one before. *)
Definition apply_substitutions (substitutions : list substitution) (b : bytes)
  : bytes :=
  fold_left (fun b subst => ReplaceAll (fromTagRE subst) b (B (toTag subst)))
            substitutions b.

(** The body of the outer loop, for one entry of the table. *)
Definition replaceImages_entry {C} (filePath : string)
    (substitutions : list substitution) : M C unit :=
  b <- on_error (fun err => ErrorString
         ("error reading file for substitution: " ++ Error err))
         (ReadFile filePath) ;;
  mode <- on_error (fun err => ErrorString
         ("error reading file info for substitution: " ++ Error err))
         (Stat filePath) ;;
  WriteFile filePath (apply_substitutions substitutions b) mode.

(** [replaceImages]. Go ranges over a map in an order of its choosing:
    [table] is the table in the order of this run, a permutation of
    [imageSubstitutions]. *)
Fixpoint replaceImages {C} (table : list (string * list substitution)) : M C unit :=
  match table with
  | [] => ret tt
  | (filePath, substitutions) :: table' =>
      replaceImages_entry filePath substitutions ;;;
      replaceImages table'
  end.

Section Scaffold.
Context `{config_Config C}.
(** [pluginKey] is declared in another file of the package. *)
Variable pluginKey : string.

(** [initSubcommand.Scaffold]; [None] is Go's [nil]. *)
Definition Scaffold (table : list (string * list substitution))
  : M C unit :=
  replaceImages table ;;;
  err <- encodePluginConfig pluginKey MkConfig ;;
  match err with
  | Some e =>
      if negb (errors_As_UnsupportedFieldError e)
      then fail (ErrorString
             ("error writing plugin config for " ++ pluginKey ++ ": " ++ Error e))
      else ret tt
  | None => ret tt
  end.
End Scaffold.

(** ** Observations on a run *)

(** The path a filesystem call is about. *)
Definition event_path (ev : event) : option string :=
  match ev with
  | CallReadFile name | CallStat name | CallWriteFile name _ _ => Some name
  | CallEncodePluginConfig _ _ => None
  end.

Definition is_encode (ev : event) : bool :=
  match ev with
  | CallEncodePluginConfig _ _ => true
  | _ => false
  end.

(** The calls a computation makes from [w]: what it adds to the log. *)
Definition calls {C A} (m : M C A) (w : World C) : list event :=
  drop (length (w_log w)) (w_log (fst (m w))).

(** The paths of the table. *)
Definition table_paths (table : list (string * list substitution)) : list string :=
  fst <$> table.

(** [s] occurs in [t]. *)
Definition contains (t s : bytes) : Prop := exists pre post, t = pre ++ s ++ post.
Definition str_contains (t s : string) : Prop :=
  exists pre post, t = (pre ++ s ++ post)%string.

(** [s] starts a line of [t]: at its very beginning or right after a
    newline. *)
Definition at_line_start (t s : bytes) : Prop :=
  exists pre post, t = pre ++ s ++ post /\ (pre = [] \/ exists pre', pre = pre' ++ [nl]).

(** The pattern matches somewhere in the input. *)
Fixpoint has_match (re : regex) (s : bytes) : bool :=
  match s with
  | [] => false
  | _ :: s' => match match_at re s with Some _ => true | None => has_match re s' end
  end.

(** ** Doubles for the collaborators, and a sample project *)

(** A configuration store: version 2 of the project file has no plugins
    field, version 3 records the key, and a broken store fails. *)
Inductive stub_store : Type :=
  | StoreV2
  | StoreV3 (plugins : list string)
  | StoreBroken.

#[export] Instance stub_store_config : config_Config stub_store := {
  EncodePluginConfig key _ st :=
    match st with
    | StoreV2 => (StoreV2, Some (UnsupportedFieldError "2" "plugins"))
    | StoreV3 plugins =>
        (StoreV3 (if existsb (String.eqb key) plugins then plugins
                  else key :: plugins), None)
    | StoreBroken => (StoreBroken, Some (Errno "input/output error"))
    end
}.

Definition no_fault : fsop -> string -> option error := fun _ _ => None.

(** [afero.NewReadOnlyFs]: every write is refused with [syscall.EPERM]. *)
Definition read_only : fsop -> string -> option error :=
  fun op _ => match op with
              | OpWrite => Some (Errno "operation not permitted")
              | _ => None
              end.

Definition sample_patch : bytes := B
"      containers:
      - name: kube-rbac-proxy
        image: gcr.io/kubebuilder/kube-rbac-proxy:v0.13.1
        args:
".

Definition sample_Dockerfile : bytes := B
"# Build the manager binary
FROM golang:1.19 as builder
WORKDIR /workspace
FROM gcr.io/distroless/static:nonroot
WORKDIR /
".

Definition sample_go_mod : bytes := B
"module example.com/memcached

go 1.19

require golang.org/x/net v0.10.0 // indirect
".

Definition sample_files : gmap string file :=
  list_to_map
    [ ("config/default/manager_auth_proxy_patch.yaml", File sample_patch 420%N);
      ("Dockerfile", File sample_Dockerfile 420%N);
      ("go.mod", File sample_go_mod 384%N);
      ("README.md", File (B "golang:1.19 go 1.19") 420%N) ].

Definition sample_world (fault : fsop -> string -> option error)
    (st : stub_store) : World stub_store :=
  MkWorld (MkFs sample_files fault) st [].

Definition sample_key : string := "openshift.sdk.operatorframework.io/v1".

(** ** The rules of the table, by name *)

Definition kube_rbac_proxy_rule : substitution :=
  Substitution (MustCompile "gcr.io/kubebuilder/kube-rbac-proxy:[^ \n]+")
    ("registry.redhat.io/openshift4/ose-kube-rbac-proxy:v" ++ ocpProductVersion).
Definition ansible_rule : substitution :=
  Substitution (MustCompile "quay.io/operator-framework/ansible-operator:[^ \n]+")
    ("registry.redhat.io/openshift4/ose-ansible-operator:v" ++ ocpProductVersion).
Definition helm_rule : substitution :=
  Substitution (MustCompile "quay.io/operator-framework/helm-operator:[^ \n]+")
    ("registry.redhat.io/openshift4/ose-helm-operator:v" ++ ocpProductVersion).
Definition distroless_rule : substitution :=
  Substitution (MustCompile "gcr.io/distroless/static:[^ \n]+")
    ("registry.access.redhat.com/ubi8/ubi-minimal:" ++ ubiMinimalVersion).
Definition golang_rule : substitution :=
  Substitution (MustCompile "golang:[^ \n]+") "golang:1.20".
Definition ubi_micro_rule : substitution :=
  Substitution (MustCompile "registry.access.redhat.com/ubi8/ubi-micro:[^ \n]+")
    ("registry.access.redhat.com/ubi8/ubi-micro:" ++ ubiMinimalVersion).
Definition x_net_rule : substitution :=
  Substitution (MustCompile "golang.org/x/net [^ \n]+") "golang.org/x/net v0.17.0".
Definition go_directive_rule : substitution :=
  Substitution (MustCompile "go 1.[^2\n]+") "go 1.20".

Definition patch_rules : list substitution := [kube_rbac_proxy_rule].
Definition Dockerfile_rules : list substitution :=
  [ansible_rule; helm_rule; distroless_rule; golang_rule; ubi_micro_rule].
Definition go_mod_rules : list substitution := [x_net_rule; go_directive_rule].

(** One rule on a content: the body of the inner loop. *)
Definition subst_apply (subst : substitution) (b : bytes) : bytes :=
  ReplaceAll (fromTagRE subst) b (B (toTag subst)).

(** The input is empty or begins with a byte the class of [re] excludes:
    where a greedy match stops. *)
Definition stops (excl : bytes) (s : bytes) : Prop :=
  match s with
  | [] => True
  | d :: _ => existsb (Byte.eqb d) excl = true
  end.

(** No atom of the prefix accepts the byte [d]. *)
Definition atom_rejects (d : byte) (a : atom) : Prop :=
  match a with
  | Lit c => c <> d
  | AnyNotNL => d = nl
  end.

(** [s] occurs in [t], decided. *)
Fixpoint is_prefix (s t : bytes) : bool :=
  match s, t with
  | [], _ => true
  | a :: s', b :: t' => Byte.eqb a b && is_prefix s' t'
  | _ :: _, [] => false
  end.

Fixpoint containsb (t s : bytes) : bool :=
  is_prefix s t ||
  match t with
  | [] => false
  | _ :: t' => containsb t' s
  end.

(** ** Matching against a known beginning of the input

    [feed p w] runs the atoms [p] over [w] alone: they fail, or finish
    and leave a suffix of [w], or use up [w] with atoms to spare. *)

Inductive fed : Type :=
  | Fail
  | Done (left : bytes)
  | More (p : list atom).

Fixpoint feed (p : list atom) (w : bytes) : fed :=
  match p with
  | [] => Done w
  | a :: p' =>
      match w with
      | [] => More p
      | b :: w' =>
          match a with
          | Lit c => if Byte.eqb b c then feed p' w' else Fail
          | AnyNotNL =>
              if Byte.eqb b nl then Fail
              else feed p' (drop (rune_width w) w)
          end
      end
  end.

(** What can be said of a match at the head of [s ++ t] from [s] alone. *)
Inductive verdict : Type :=
  | NoMatch        (* none, whatever [t] is *)
  | NoMatchAtStop  (* none, if [t] is empty or begins with an excluded byte *)
  | ExactMatch     (* the match is [s], if [t] is empty or begins with an excluded byte *)
  | Undecided.

Definition analyse (p : list atom) (excl : bytes) (s : bytes) : verdict :=
  match feed p s with
  | Fail => NoMatch
  | More _ => Undecided
  | Done [] => NoMatchAtStop
  | Done (c :: w1) =>
      if existsb (Byte.eqb c) excl then NoMatch
      else if forallb (fun b => negb (existsb (Byte.eqb b) excl)) w1
           then ExactMatch else Undecided
  end.

Definition is_NoMatch (v : verdict) : bool :=
  match v with NoMatch => true | _ => false end.

(** The non-empty suffixes of a list, longest first. *)
Fixpoint tails_ne {A} (l : list A) : list (list A) :=
  match l with
  | [] => []
  | _ :: l' => l :: tails_ne l'
  end.

(** ** Settled contents

    An occurrence of the pattern at the head of [s] is the replacement
    itself, followed by what follows the match. *)
Definition head_ok (re : regex) (repl : bytes) (s : bytes) : Prop :=
  forall rest, match_at re s = Some rest -> s = repl ++ rest.

(** The same at every position of [s]. *)
Fixpoint settled (re : regex) (repl : bytes) (s : bytes) : Prop :=
  head_ok re repl s /\
  match s with
  | [] => True
  | _ :: s' => settled re repl s'
  end.

Definition first_lit (p : list atom) : option byte :=
  match p with
  | Lit c :: _ => Some c
  | _ => None
  end.

(** The shape every rule of the table has: the pattern begins with an
    ASCII literal that its class accepts, the excluded bytes are ASCII,
    and the replacement is ASCII, at least as long as the prefix, and
    begins with a byte the class accepts. *)
Definition rule_wf (re : regex) (repl : bytes) : bool :=
  match first_lit (re_prefix re), repl with
  | Some c0, r0 :: _ =>
      is_ascii c0 && negb (existsb (Byte.eqb c0) (re_excl re)) &&
      negb (existsb (Byte.eqb r0) (re_excl re)) &&
      forallb is_ascii repl && forallb is_ascii (re_excl re) &&
      Nat.leb (length (re_prefix re)) (length repl)
  | _, _ => false
  end.

(** No occurrence of the pattern begins inside the replacement, past
    its first byte; at its first byte there is none or the replacement
    itself. *)
Definition repl_settled (re : regex) (repl : bytes) : bool :=
  forallb (fun s => is_NoMatch (analyse (re_prefix re) (re_excl re) s))
          (tails_ne (tail repl)) &&
  match analyse (re_prefix re) (re_excl re) repl with
  | Undecided => false
  | _ => true
  end.

(** No proper suffix of the prefix of [re] can continue into [repl]. *)
Definition no_overlap (re : regex) (repl : bytes) : bool :=
  forallb (fun p' => is_NoMatch (analyse p' (re_excl re) repl))
          (tails_ne (tail (re_prefix re))).

(** No occurrence of the pattern begins anywhere inside [s]. *)
Definition absent_in (re : regex) (s : bytes) : bool :=
  forallb (fun s' => is_NoMatch (analyse (re_prefix re) (re_excl re) s'))
          (tails_ne s).

(** What rule [k], applied after rule [j], needs in order to keep the
    contents settled for [j]. *)
Definition pair_ok (rej : regex) (replj : bytes) (rek : regex) (replk : bytes) : bool :=
  absent_in rej replk &&
  no_overlap rej replk &&
  absent_in rek (tail replj) &&
  match first_lit (re_prefix rek), replk with
  | Some c0, r0 :: _ =>
      negb (existsb (Byte.eqb c0) (re_excl rej)) &&
      negb (existsb (Byte.eqb r0) (re_excl rej))
  | _, _ => false
  end.

(** ** Pipelines of rules *)

(** Whatever goes in, what one rule puts out is settled for it. *)
Definition rule_settles (j : substitution) : Prop :=
  forall x, settled (fromTagRE j) (B (toTag j)) (subst_apply j x).

(** Rule [k] keeps settled for [j] what was settled for [j]. *)
Definition rule_keeps (j k : substitution) : Prop :=
  forall y, settled (fromTagRE j) (B (toTag j)) y ->
            settled (fromTagRE j) (B (toTag j)) (subst_apply k y).

Fixpoint pipeline_ok (rules : list substitution) : Prop :=
  match rules with
  | [] => True
  | j :: rest => rule_settles j /\ Forall (rule_keeps j) rest /\ pipeline_ok rest
  end.

(** ** Notions used in the statements *)

(** The context the applier puts around a read or a stat failure. *)
Definition read_ctx (err : error) : error :=
  ErrorString ("error reading file for substitution: " ++ Error err).
Definition stat_ctx (err : error) : error :=
  ErrorString ("error reading file info for substitution: " ++ Error err).

(** The context the step puts around a failure of the store. *)
Definition marker_error (pluginKey : string) (e : error) : error :=
  ErrorString ("error writing plugin config for " ++ pluginKey ++ ": " ++ Error e).

(** What a computation may change between [w] and [w']: nothing in the
    store, no fault, no file outside [paths], no mode; it only adds calls
    on [paths] to the log, and writes with the mode the file has. *)
Record frame {C} (paths : list string) (w w' : World C) : Prop := {
  frame_config : w_config w' = w_config w;
  frame_fault : fs_fault (w_fs w') = fs_fault (w_fs w);
  frame_files : forall q, q ∉ paths ->
    fs_files (w_fs w') !! q = fs_files (w_fs w) !! q;
  frame_mode : forall q,
    f_mode <$> (fs_files (w_fs w') !! q) = f_mode <$> (fs_files (w_fs w) !! q);
  frame_log : exists evs, w_log w' = w_log w ++ evs /\
    Forall (fun ev => exists q, event_path ev = Some q /\ q ∈ paths /\
      forall d perm, ev = CallWriteFile q d perm ->
        f_mode <$> (fs_files (w_fs w) !! q) = Some perm) evs
}.

(** The entry [(p, rules)] has been processed between [w] and [w']. *)
Definition entry_done {C} (w w' : World C) (p : string) (rules : list substitution)
  : Prop :=
  exists f,
    fs_files (w_fs w) !! p = Some f /\
    fs_files (w_fs w') !! p =
      Some (File (apply_substitutions rules (f_data f)) (f_mode f)) /\
    (exists evs, w_log w' = w_log w ++ evs /\
       CallWriteFile p (apply_substitutions rules (f_data f)) (f_mode f) ∈ evs) /\
    fs_fault (w_fs w) OpRead p = None /\
    fs_fault (w_fs w) OpStat p = None /\
    fs_fault (w_fs w) OpWrite p = None.

(** The file at [p] is there and no operation on it is made to fail. *)
Definition entry_ready (fs : Fs) (p : string) : Prop :=
  is_Some (fs_files fs !! p) /\
  fs_fault fs OpRead p = None /\
  fs_fault fs OpStat p = None /\
  fs_fault fs OpWrite p = None.

(** What the step accepts from the store: no error, or the
    unsupported-field error. *)
Definition tolerated (r : option error) : Prop :=
  match r with
  | None => True
  | Some e => errors_As_UnsupportedFieldError e = true
  end.


(** The byte [d] ends every match of [re] that reaches it and begins
    none: the class excludes it and no atom accepts it. *)
Definition delim_safe (re : regex) (d : byte) : bool :=
  is_ascii d && existsb (Byte.eqb d) (re_excl re) &&
  forallb (fun a => match a with
                    | Lit c => negb (Byte.eqb c d)
                    | AnyNotNL => Byte.eqb d nl
                    end) (re_prefix re).

(** None of the bytes [cs] occurs in [s]. *)
Definition lacks (cs : bytes) (s : bytes) : bool :=
  forallb (fun b => negb (existsb (Byte.eqb b) cs)) s.

(** [t] is empty or ends a line. *)
Definition ends_line (t : bytes) : Prop := t = [] \/ exists l, t = l ++ [nl].

(** The bytes that end an image tag and a module version. *)
Definition blank : bytes := [sp; nl].

(** A project in which the directives of the scenario stand in the
    middle of a line, behind text that a pattern takes with it. *)
Definition tricky_world : World stub_store :=
  MkWorld
    (MkFs (list_to_map
             [ ("config/default/manager_auth_proxy_patch.yaml", File sample_patch 420%N);
               ("Dockerfile",
                File (B "golang:FROM gcr.io/distroless/static:nonroot") 420%N);
               ("go.mod", File (B "golang.org/x/net go 1.19") 420%N) ])
          no_fault)
    StoreV2 [].

(** ** Notions for further properties *)

(** The replacement of the rule is not itself an occurrence of its
    pattern, whatever stop follows it. *)
Definition never_rematches (re : regex) (repl : bytes) : bool :=
  match analyse (re_prefix re) (re_excl re) repl with
  | NoMatch | NoMatchAtStop => true
  | _ => false
  end.


(** Every rule of the table. *)
Definition all_rules : list substitution :=
  patch_rules ++ Dockerfile_rules ++ go_mod_rules.

(** The calls the applier makes for one entry of the table when it
    finds the file: a read, a stat and the write of the rewritten content
    with the mode of the file. *)
Definition entry_calls (files : gmap string file)
    (entry : string * list substitution) : list event :=
  match files !! fst entry with
  | Some f =>
      [ CallReadFile (fst entry); CallStat (fst entry);
        CallWriteFile (fst entry) (apply_substitutions (snd entry) (f_data f))
                      (f_mode f) ]
  | None => []
  end.

(** The sample project with one file missing. *)
Definition sample_world_without (name : string) (st : stub_store)
  : World stub_store :=
  MkWorld (MkFs (delete name sample_files) no_fault) st [].

(** The number of newlines of a content. *)
Definition count_nl (b : bytes) : nat :=
  length (filter (fun x => Byte.eqb x nl = true) b).

(** * Properties *)

(** ** The matcher and the replacement loop *)

Lemma skip_class_length excl s : length (skip_class excl s) <= length s.
Proof.
  induction s as [|b s IH]; simpl; [lia|].
  destruct (existsb (Byte.eqb b) excl); simpl; lia.
Qed.

Lemma match_prefix_length p : forall s s1,
  match_prefix p s = Some s1 -> length s1 <= length s.
Proof.
  induction p as [|a p IH]; intros s s1 Hm; simpl in Hm.
  - injection Hm as <-. lia.
  - destruct a as [c|].
    + destruct s as [|b s]; [discriminate|].
      destruct (Byte.eqb b c); [|discriminate].
      apply IH in Hm. simpl. lia.
    + destruct s as [|b s]; [discriminate|].
      destruct (Byte.eqb b nl); [discriminate|].
      apply IH in Hm. rewrite length_drop in Hm. lia.
Qed.

Lemma match_class_length excl s rest :
  match_class excl s = Some rest -> length rest < length s.
Proof.
  destruct s as [|b s]; simpl; [discriminate|].
  destruct (existsb (Byte.eqb b) excl); [discriminate|].
  intros [= <-]. pose proof (skip_class_length excl s). lia.
Qed.

Lemma matchp_length p excl s rest :
  matchp p excl s = Some rest -> length rest < length s.
Proof.
  unfold matchp. destruct (match_prefix p s) as [s1|] eqn:Hp; [|discriminate].
  intros Hc. apply match_class_length in Hc. apply match_prefix_length in Hp. lia.
Qed.

Lemma match_at_length re s rest :
  match_at re s = Some rest -> length rest < length s.
Proof. apply matchp_length. Qed.

(** Induction on the length of the input. *)
Lemma length_ind (P : bytes -> Prop) :
  (forall s, (forall t, length t < length s -> P t) -> P s) -> forall s, P s.
Proof.
  intros H s. remember (length s) as n eqn:Hn.
  revert s Hn. induction n as [n IH] using lt_wf_ind.
  intros s ->. apply H. intros t Ht. exact (IH _ Ht t eq_refl).
Qed.

(** The loop never needs more fuel than the input is long. *)
Lemma replaceAll_loop_fuel re repl : forall fuel src,
  length src <= fuel ->
  replaceAll_loop fuel re repl src = replaceAll_loop (length src) re repl src.
Proof.
  intros fuel src. revert fuel.
  induction src as [src IH] using length_ind.
  intros fuel Hf. destruct src as [|b src]; [destruct fuel; reflexivity|].
  destruct fuel as [|fuel]; [simpl in Hf; lia|].
  cbn [length replaceAll_loop].
  destruct (match_at re (b :: src)) as [rest|] eqn:Hm.
  - pose proof (match_at_length _ _ _ Hm) as Hl. simpl in Hl, Hf.
    rewrite (IH rest ltac:(simpl; lia) fuel) by lia.
    rewrite (IH rest ltac:(simpl; lia) (length src)) by lia. reflexivity.
  - simpl in Hf. rewrite (IH src ltac:(simpl; lia) fuel) by lia. reflexivity.
Qed.

(** The three equations of [ReplaceAll]; the proofs below use only these. *)
Lemma ReplaceAll_nil re repl : ReplaceAll re [] repl = [].
Proof. reflexivity. Qed.

Lemma ReplaceAll_match re repl src rest :
  match_at re src = Some rest ->
  ReplaceAll re src repl = repl ++ ReplaceAll re rest repl.
Proof.
  intros Hm. pose proof (match_at_length _ _ _ Hm) as Hl.
  destruct src as [|b src]; [simpl in Hl; lia|].
  unfold ReplaceAll. cbn [length replaceAll_loop]. rewrite Hm.
  rewrite replaceAll_loop_fuel by (simpl in Hl; lia). reflexivity.
Qed.

Lemma ReplaceAll_skip re repl b src :
  match_at re (b :: src) = None ->
  ReplaceAll re (b :: src) repl = b :: ReplaceAll re src repl.
Proof.
  intros Hm. unfold ReplaceAll. cbn [length replaceAll_loop]. rewrite Hm.
  reflexivity.
Qed.

(** Induction along the scan of [ReplaceAll]. *)
Lemma scan_ind re (P : bytes -> Prop) :
  P [] ->
  (forall b src, match_at re (b :: src) = None -> P src -> P (b :: src)) ->
  (forall src rest, match_at re src = Some rest -> P rest -> P src) ->
  forall src, P src.
Proof.
  intros Hnil Hskip Hmatch src.
  induction src as [src IH] using length_ind.
  destruct src as [|b src]; [exact Hnil|].
  destruct (match_at re (b :: src)) as [rest|] eqn:Hm.
  - apply (Hmatch _ _ Hm). apply IH. apply (match_at_length _ _ _ Hm).
  - apply (Hskip _ _ Hm). apply IH. simpl. lia.
Qed.

(** ** One entry of the table on the world *)


Lemma replaceImages_entry_eq {C} p rules (w : World C) :
  replaceImages_entry p rules w =
  match fs_ReadFile (w_fs w) p with
  | inl e => (log (CallReadFile p) w, inl (read_ctx e))
  | inr b =>
      match fs_Stat (w_fs w) p with
      | inl e => (log (CallStat p) (log (CallReadFile p) w), inl (stat_ctx e))
      | inr mode =>
          let data := apply_substitutions rules b in
          let w3 := log (CallWriteFile p data mode)
                      (log (CallStat p) (log (CallReadFile p) w)) in
          match fs_WriteFile (w_fs w) p data mode with
          | inl e => (w3, inl e)
          | inr fs' => (MkWorld fs' (w_config w) (w_log w3), inr tt)
          end
      end
  end.
Proof.
  unfold replaceImages_entry, bind, on_error, ReadFile, Stat, WriteFile.
  destruct (fs_ReadFile (w_fs w) p) as [e|b]; [reflexivity|].
  cbn [w_fs log]. destruct (fs_Stat (w_fs w) p) as [e|mode]; [reflexivity|].
  cbn [w_fs log w_config w_log].
  destruct (fs_WriteFile (w_fs w) p _ mode) as [e|fs']; reflexivity.
Qed.

Lemma fs_ReadFile_inr fs p b :
  fs_ReadFile fs p = inr b ->
  fs_fault fs OpRead p = None /\ exists f, fs_files fs !! p = Some f /\ f_data f = b.
Proof.
  unfold fs_ReadFile. destruct (fs_fault fs OpRead p); [discriminate|].
  destruct (fs_files fs !! p) as [f|]; [|discriminate].
  intros [= <-]. eauto.
Qed.

Lemma fs_Stat_inr fs p m :
  fs_Stat fs p = inr m ->
  fs_fault fs OpStat p = None /\ exists f, fs_files fs !! p = Some f /\ f_mode f = m.
Proof.
  unfold fs_Stat. destruct (fs_fault fs OpStat p); [discriminate|].
  destruct (fs_files fs !! p) as [f|]; [|discriminate].
  intros [= <-]. eauto.
Qed.

Lemma fs_WriteFile_inr fs p data perm fs' :
  fs_WriteFile fs p data perm = inr fs' ->
  fs_fault fs OpWrite p = None /\
  fs' = MkFs (<[p := File data (match fs_files fs !! p with
                                 | Some f => f_mode f
                                 | None => perm
                                 end)]> (fs_files fs)) (fs_fault fs).
Proof.
  unfold fs_WriteFile. destruct (fs_fault fs OpWrite p); [discriminate|].
  intros [= <-]. eauto.
Qed.

(** What a successful pass over one entry does to the world. *)
Lemma replaceImages_entry_ok {C} p rules (w w' : World C) :
  replaceImages_entry p rules w = (w', inr tt) ->
  exists f,
    fs_files (w_fs w) !! p = Some f /\
    fs_files (w_fs w') =
      <[p := File (apply_substitutions rules (f_data f)) (f_mode f)]>
        (fs_files (w_fs w)) /\
    fs_fault (w_fs w') = fs_fault (w_fs w) /\
    w_config w' = w_config w /\
    w_log w' = w_log w ++
      [CallReadFile p; CallStat p;
       CallWriteFile p (apply_substitutions rules (f_data f)) (f_mode f)] /\
    fs_fault (w_fs w) OpRead p = None /\
    fs_fault (w_fs w) OpStat p = None /\
    fs_fault (w_fs w) OpWrite p = None.
Proof.
  rewrite replaceImages_entry_eq.
  destruct (fs_ReadFile (w_fs w) p) as [e|b] eqn:Hr; [discriminate|].
  destruct (fs_Stat (w_fs w) p) as [e|mode] eqn:Hs; [discriminate|].
  cbv zeta.
  destruct (fs_WriteFile (w_fs w) p _ mode) as [e|fs'] eqn:Hw; [discriminate|].
  intros [= <-].
  apply fs_ReadFile_inr in Hr as (Hfr & f & Hf & <-).
  apply fs_Stat_inr in Hs as (Hfs & f2 & Hf2 & <-).
  apply fs_WriteFile_inr in Hw as (Hfw & ->).
  rewrite Hf in Hf2. injection Hf2 as <-.
  exists f. rewrite Hf. cbn [w_fs fs_files fs_fault w_config w_log log].
  repeat split; try assumption.
  rewrite <- !app_assoc. reflexivity.
Qed.

(** And when it succeeds. *)
Lemma replaceImages_entry_succeeds {C} p rules (w : World C) f :
  fs_files (w_fs w) !! p = Some f ->
  fs_fault (w_fs w) OpRead p = None ->
  fs_fault (w_fs w) OpStat p = None ->
  fs_fault (w_fs w) OpWrite p = None ->
  exists w', replaceImages_entry p rules w = (w', inr tt).
Proof.
  intros Hf Hr Hs Hw. rewrite replaceImages_entry_eq.
  unfold fs_ReadFile, fs_Stat, fs_WriteFile. rewrite Hr, Hs, Hw, Hf.
  cbv zeta. eauto.
Qed.

(** ** Frame properties, whatever the outcome *)


Lemma frame_refl {C} paths (w : World C) : frame paths w w.
Proof.
  split; try reflexivity. exists []. split; [by rewrite app_nil_r|constructor].
Qed.

Lemma frame_trans {C} paths (w1 w2 w3 : World C) :
  frame paths w1 w2 -> frame paths w2 w3 -> frame paths w1 w3.
Proof.
  intros [Hc1 Hf1 Hq1 Hm1 (e1 & Hl1 & He1)] [Hc2 Hf2 Hq2 Hm2 (e2 & Hl2 & He2)].
  split.
  - congruence.
  - congruence.
  - intros q Hq. rewrite Hq2, Hq1; auto.
  - intros q. rewrite Hm2, Hm1; auto.
  - exists (e1 ++ e2). split.
    + rewrite Hl2, Hl1, app_assoc. reflexivity.
    + apply Forall_app. split; [exact He1|].
      eapply Forall_impl; [exact He2|]. intros ev (q & ? & ? & Hw).
      exists q. repeat split; try assumption.
      intros d perm Hev. rewrite <- Hm1. eauto.
Qed.

Lemma frame_weaken {C} paths paths' (w w' : World C) :
  paths ⊆ paths' -> frame paths w w' -> frame paths' w w'.
Proof.
  intros Hsub [Hc Hf Hq Hm (e & Hl & He)].
  split; [assumption|assumption| |assumption| ].
  - intros q Hn. apply Hq. intros Hin. apply Hn, Hsub, Hin.
  - exists e. split; [assumption|].
    eapply Forall_impl; [exact He|]. intros ev (q & ? & ? & ?). exists q. auto.
Qed.

Lemma frame_log_one {C} p ev (w : World C) :
  event_path ev = Some p ->
  (forall d perm, ev = CallWriteFile p d perm ->
     f_mode <$> (fs_files (w_fs w) !! p) = Some perm) ->
  frame [p] w (log ev w).
Proof.
  intros Hev Hw. split; try reflexivity.
  exists [ev]. split; [reflexivity|]. repeat constructor. exists p.
  split; [assumption|]. split; [|exact Hw].
  apply list_elem_of_singleton. reflexivity.
Qed.

Lemma replaceImages_entry_frame {C} p rules (w w' : World C) r :
  replaceImages_entry p rules w = (w', r) -> frame [p] w w'.
Proof.
  rewrite replaceImages_entry_eq.
  assert (frame [p] w (log (CallReadFile p) w)) as F1.
  { apply frame_log_one; [reflexivity|discriminate]. }
  assert (forall w : World C, frame [p] w (log (CallStat p) w)) as F2.
  { intros w0. apply frame_log_one; [reflexivity|discriminate]. }
  destruct (fs_ReadFile (w_fs w) p) as [e|b] eqn:Hr.
  { intros [= <- <-]. exact F1. }
  destruct (fs_Stat (w_fs w) p) as [e|mode] eqn:Hs.
  { intros [= <- <-]. eapply frame_trans; [exact F1|apply F2]. }
  cbv zeta.
  apply fs_Stat_inr in Hs as (_ & f & Hf & <-).
  assert (frame [p] w (log (CallWriteFile p (apply_substitutions rules b) (f_mode f))
           (log (CallStat p) (log (CallReadFile p) w)))) as F.
  { eapply frame_trans; [exact F1|]. eapply frame_trans; [apply F2|].
    apply frame_log_one; [reflexivity|]. intros d perm [= _ <-].
    cbn [log w_fs]. rewrite Hf. reflexivity. }
  destruct (fs_WriteFile (w_fs w) p _ (f_mode f)) as [e|fs'] eqn:Hw.
  { intros [= <- <-]. exact F. }
  intros [= <- <-].
  apply fs_WriteFile_inr in Hw as (_ & ->). rewrite Hf.
  destruct F as [Hc Hfa Hq Hm Hl]. split; cbn [w_fs w_config w_log fs_files fs_fault] in *.
  - reflexivity.
  - reflexivity.
  - intros q Hn. rewrite lookup_insert_ne; [reflexivity|].
    intros ->. apply Hn, list_elem_of_singleton. reflexivity.
  - intros q. destruct (decide (p = q)) as [->|Hne].
    + rewrite lookup_insert_eq, Hf. reflexivity.
    + rewrite lookup_insert_ne by assumption. reflexivity.
  - exact Hl.
Qed.

Lemma replaceImages_frame {C} table : forall (w w' : World C) r,
  replaceImages table w = (w', r) -> frame (table_paths table) w w'.
Proof.
  induction table as [|[p rules] table IH]; intros w w' r; cbn [replaceImages].
  - intros [= <- <-]. apply frame_refl.
  - unfold bind. destruct (replaceImages_entry p rules w) as [w1 [e|[]]] eqn:He.
    + intros [= <- <-]. apply replaceImages_entry_frame in He.
      eapply frame_weaken; [|exact He].
      intros q Hq. apply list_elem_of_singleton in Hq as ->. left.
    + intros Hrest. apply replaceImages_entry_frame in He. apply IH in Hrest.
      eapply frame_trans.
      * eapply frame_weaken; [|exact He].
        intros q Hq. apply list_elem_of_singleton in Hq as ->. left.
      * eapply frame_weaken; [|exact Hrest]. intros q Hq. right. exact Hq.
Qed.

(** ** A successful pass over the table *)


Lemma replaceImages_ok {C} table : forall (w w' : World C),
  NoDup (table_paths table) ->
  replaceImages table w = (w', inr tt) ->
  forall p rules, (p, rules) ∈ table -> entry_done w w' p rules.
Proof.
  induction table as [|[p0 rules0] table IH]; intros w w' Hnd Hrun p rules Hin.
  { inversion Hin. }
  cbn [replaceImages] in Hrun. unfold bind in Hrun.
  destruct (replaceImages_entry p0 rules0 w) as [w1 [e|[]]] eqn:He; [discriminate|].
  cbn [table_paths fmap list_fmap fst] in Hnd. apply NoDup_cons in Hnd as [Hnotin Hnd].
  pose proof (replaceImages_frame _ _ _ _ Hrun) as Frest.
  pose proof (replaceImages_entry_frame _ _ _ _ _ He) as Fhd.
  apply replaceImages_entry_ok in He
    as (f & Hf & Hfiles & Hfault & Hcfg & Hlog & Hfr & Hfs & Hfw).
  apply elem_of_cons in Hin as [[= -> ->]|Hin].
  - exists f. split; [assumption|]. split.
    { rewrite (frame_files _ _ _ Frest) by exact Hnotin.
      rewrite Hfiles, lookup_insert_eq. reflexivity. }
    split; [|auto].
    destruct (frame_log _ _ _ Frest) as (evs & Hl & _).
    eexists. split.
    { rewrite Hl, Hlog, <- app_assoc. reflexivity. }
    apply elem_of_app. left. do 2 right. left.
  - assert (p <> p0) as Hne.
    { intros ->. apply Hnotin. apply list_elem_of_fmap.
      exists (p0, rules). auto. }
    destruct (IH w1 w' Hnd Hrun p rules Hin)
      as (f1 & Hf1 & Hf1' & (evs & Hl & Hev) & Hr1 & Hs1 & Hw1).
    rewrite Hfiles, lookup_insert_ne in Hf1 by congruence.
    exists f1. split; [assumption|]. split; [assumption|].
    rewrite Hfault in Hr1, Hs1, Hw1. split; [|auto].
    eexists. split.
    { rewrite Hl, Hlog, <- app_assoc. reflexivity. }
    apply elem_of_app. right. exact Hev.
Qed.


Lemma entry_ready_frame {C} paths (w w' : World C) p :
  frame paths w w' -> entry_ready (w_fs w) p -> entry_ready (w_fs w') p.
Proof.
  intros F (Hs & Hr & Hst & Hw). unfold entry_ready.
  rewrite (frame_fault _ _ _ F). repeat split; try assumption.
  pose proof (frame_mode _ _ _ F p) as Hm.
  destruct Hs as [f Hf]. rewrite Hf in Hm.
  destruct (fs_files (w_fs w') !! p); [eauto|discriminate].
Qed.

Lemma replaceImages_succeeds {C} table : forall (w : World C),
  (forall p, p ∈ table_paths table -> entry_ready (w_fs w) p) ->
  exists w', replaceImages table w = (w', inr tt).
Proof.
  induction table as [|[p0 rules0] table IH]; intros w Hready.
  { eexists. reflexivity. }
  cbn [replaceImages]. unfold bind.
  destruct (Hready p0 ltac:(left)) as ([f Hf] & Hr & Hs & Hw).
  destruct (replaceImages_entry_succeeds p0 rules0 w f Hf Hr Hs Hw) as [w1 He].
  rewrite He. apply IH. intros p Hp.
  eapply entry_ready_frame; [eapply replaceImages_entry_frame, He|].
  apply Hready. right. exact Hp.
Qed.

Lemma replaceImages_ok_ready {C} table (w w' : World C) :
  replaceImages table w = (w', inr tt) ->
  forall p, p ∈ table_paths table -> entry_ready (w_fs w) p.
Proof.
  revert w. induction table as [|[p0 rules0] table IH]; intros w Hrun p Hp.
  { inversion Hp. }
  cbn [replaceImages] in Hrun. unfold bind in Hrun.
  destruct (replaceImages_entry p0 rules0 w) as [w1 [e|[]]] eqn:He; [discriminate|].
  pose proof (replaceImages_entry_frame _ _ _ _ _ He) as Fhd.
  apply replaceImages_entry_ok in He
    as (f & Hf & Hfiles & Hfault & Hcfg & Hlog & Hfr & Hfs & Hfw).
  cbn [table_paths fmap list_fmap fst] in Hp. apply elem_of_cons in Hp as [->|Hp].
  - split; [eauto|auto].
  - destruct (IH w1 Hrun p Hp) as ([f1 Hf1] & Hr1 & Hs1 & Hw1).
    rewrite Hfault in Hr1, Hs1, Hw1. split; [|auto].
    pose proof (frame_mode _ _ _ Fhd p) as Hm. rewrite Hf1 in Hm.
    destruct (fs_files (w_fs w) !! p); [eauto|discriminate].
Qed.

Lemma calls_of_log {C A} (m : M C A) (w : World C) evs :
  w_log (fst (m w)) = w_log w ++ evs -> calls m w = evs.
Proof. unfold calls. intros ->. apply drop_app_length. Qed.

Lemma replaceImages_calls {C} table (w : World C) :
  w_log (fst (replaceImages table w)) = w_log w ++ calls (replaceImages table) w /\
  Forall (fun ev => is_encode ev = false) (calls (replaceImages table) w).
Proof.
  destruct (replaceImages table w) as [w' r] eqn:Hrun.
  destruct (frame_log _ _ _ (replaceImages_frame _ _ _ _ Hrun)) as (evs & Hl & Hev).
  assert (calls (replaceImages table) w = evs) as ->.
  { apply calls_of_log. rewrite Hrun. exact Hl. }
  split; [exact Hl|].
  eapply Forall_impl; [exact Hev|]. intros [] (q & Hq & _); try reflexivity.
  discriminate.
Qed.

(** ** The step: ordering and error handling *)

Section ScaffoldProperties.
Context `{config_Config C}.
Variable pluginKey : string.


Lemma Scaffold_eq table (w : World C) :
  Scaffold pluginKey table w =
  match replaceImages table w with
  | (w1, inl e) => (w1, inl e)
  | (w1, inr _) =>
      let cr := EncodePluginConfig pluginKey MkConfig (w_config w1) in
      let w2 := MkWorld (w_fs w1) (fst cr)
                  (w_log w1 ++ [CallEncodePluginConfig pluginKey (snd cr)]) in
      match snd cr with
      | Some e => if errors_As_UnsupportedFieldError e then (w2, inr tt)
                  else (w2, inl (marker_error pluginKey e))
      | None => (w2, inr tt)
      end
  end.
Proof.
  unfold Scaffold, bind, encodePluginConfig.
  destruct (replaceImages table w) as [w1 [e|[]]]; [reflexivity|].
  destruct (EncodePluginConfig pluginKey MkConfig (w_config w1)) as [c' [e|]];
    cbn [fst snd]; [|reflexivity].
  destruct (errors_As_UnsupportedFieldError e); reflexivity.
Qed.

(** The calls of the step: those of the applier and, when the applier
    succeeded, one call on the store after them. *)
Lemma Scaffold_calls table (w : World C) :
  match replaceImages table w with
  | (w1, inl e) =>
      Scaffold pluginKey table w = (w1, inl e) /\
      calls (Scaffold pluginKey table) w = calls (replaceImages table) w
  | (w1, inr _) =>
      calls (Scaffold pluginKey table) w =
        calls (replaceImages table) w ++
        [CallEncodePluginConfig pluginKey
           (snd (EncodePluginConfig pluginKey MkConfig (w_config w1)))]
  end.
Proof.
  pose proof (replaceImages_calls table w) as [Hl _].
  pose proof (Scaffold_eq table w) as Heq.
  destruct (replaceImages table w) as [w1 [e|[]]] eqn:Hrun; cbn [fst] in Hl.
  - split; [exact Heq|]. apply calls_of_log. rewrite Heq. exact Hl.
  - apply calls_of_log. rewrite Heq. cbv zeta.
    destruct (snd (EncodePluginConfig pluginKey MkConfig (w_config w1))) as [e|];
      [destruct (errors_As_UnsupportedFieldError e)|];
      cbn [fst w_log]; rewrite Hl, <- app_assoc; reflexivity.
Qed.

(** C8. Marker persistence is requested only once substitution has
    completed: if [replaceImages] fails, the step returns that failure,
    makes no call on the configuration store and leaves it as it was;
    if it succeeds, the step makes exactly one call on the store, after
    every call of the applier, and the store ends as that one call left
    it (no retry, no loop). *)
Theorem Scaffold_marker_after_substitution table (w : World C) :
  match replaceImages table w with
  | (w1, inl e) =>
      Scaffold pluginKey table w = (w1, inl e) /\
      w_config (fst (Scaffold pluginKey table w)) = w_config w /\
      Forall (fun ev => is_encode ev = false) (calls (Scaffold pluginKey table) w)
  | (w1, inr _) =>
      let cr := EncodePluginConfig pluginKey MkConfig (w_config w) in
      calls (Scaffold pluginKey table) w =
        calls (replaceImages table) w ++ [CallEncodePluginConfig pluginKey (snd cr)] /\
      Forall (fun ev => is_encode ev = false) (calls (replaceImages table) w) /\
      w_config (fst (Scaffold pluginKey table w)) = fst cr
  end.
Proof.
  pose proof (Scaffold_calls table w) as Hc.
  pose proof (replaceImages_calls table w) as [_ Hne].
  pose proof (Scaffold_eq table w) as Heq.
  destruct (replaceImages table w) as [w1 [e|[]]] eqn:Hrun.
  - destruct Hc as [Hs Hc]. split; [exact Hs|]. split.
    + rewrite Hs. cbn [fst].
      exact (frame_config _ _ _ (replaceImages_frame _ _ _ _ Hrun)).
    + rewrite Hc. exact Hne.
  - pose proof (frame_config _ _ _ (replaceImages_frame _ _ _ _ Hrun)) as Hcfg.
    rewrite Hcfg in Hc, Heq. cbv zeta. split; [exact Hc|]. split; [exact Hne|].
    rewrite Heq. cbv zeta.
    destruct (snd (EncodePluginConfig pluginKey MkConfig (w_config w))) as [e|];
      [destruct (errors_As_UnsupportedFieldError e)|]; reflexivity.
Qed.

(** C2. Whenever the store's [EncodePluginConfig] returns an error
    during the step: if it is the unsupported-field error the step
    returns success; any other error makes the step fail with a message
    that includes the plugin key. *)
Theorem Scaffold_marker_errors table (w : World C) key e :
  CallEncodePluginConfig key (Some e) ∈ calls (Scaffold pluginKey table) w ->
  (errors_As_UnsupportedFieldError e = true ->
     snd (Scaffold pluginKey table w) = inr tt) /\
  (errors_As_UnsupportedFieldError e = false ->
     exists msg, snd (Scaffold pluginKey table w) = inl (ErrorString msg) /\
                 str_contains msg pluginKey).
Proof.
  intros Hin.
  pose proof (Scaffold_calls table w) as Hc.
  pose proof (replaceImages_calls table w) as [_ Hne].
  pose proof (Scaffold_eq table w) as Heq.
  rewrite Forall_forall in Hne.
  destruct (replaceImages table w) as [w1 [e0|[]]] eqn:Hrun.
  - destruct Hc as [_ Hc]. rewrite Hc in Hin. apply Hne in Hin. discriminate.
  - rewrite Hc in Hin. apply elem_of_app in Hin as [Hin|Hin].
    { apply Hne in Hin. discriminate. }
    apply list_elem_of_singleton in Hin. injection Hin as _ Hret.
    rewrite Heq. cbv zeta. rewrite <- Hret. split; intros ->; [reflexivity|].
    eexists. split; [reflexivity|].
    exists "error writing plugin config for ", (": " ++ Error e)%string.
    reflexivity.
Qed.

(** C6. A path that is not a key of the table is never read, stat-ed
    or written by the step, and the file there (if any) is after the
    step what it was before, whatever the outcome. The lookup is by the
    exact path string. *)
Theorem Scaffold_untouched table (w : World C) p :
  table ≡ₚ imageSubstitutions ->
  p ∉ table_paths imageSubstitutions ->
  fs_files (w_fs (fst (Scaffold pluginKey table w))) !! p = fs_files (w_fs w) !! p /\
  Forall (fun ev => event_path ev <> Some p) (calls (Scaffold pluginKey table) w).
Proof.
  intros Hperm Hp.
  assert (p ∉ table_paths table) as Hp'.
  { unfold table_paths. rewrite Hperm. exact Hp. }
  pose proof (Scaffold_calls table w) as Hc.
  pose proof (replaceImages_calls table w) as [Hlog _].
  pose proof (Scaffold_eq table w) as Heq.
  destruct (replaceImages table w) as [w1 r] eqn:Hrun.
  pose proof (replaceImages_frame _ _ _ _ Hrun) as F.
  destruct (frame_log _ _ _ F) as (evs & Hl & Hev).
  assert (calls (replaceImages table) w = evs) as Hcalls.
  { apply calls_of_log. rewrite Hrun. exact Hl. }
  assert (Forall (fun ev => event_path ev <> Some p) evs) as Hno.
  { eapply Forall_impl; [exact Hev|]. intros ev (q & Hq & Hin & _).
    rewrite Hq. intros [= ->]. contradiction. }
  destruct r as [e|[]].
  - destruct Hc as [Hs Hc]. rewrite Hs, Hc, Hcalls. cbn [fst].
    split; [exact (frame_files _ _ _ F p Hp')|exact Hno].
  - rewrite Hc, Hcalls. split.
    + rewrite Heq. cbv zeta.
      destruct (snd (EncodePluginConfig pluginKey MkConfig (w_config w1))) as [e|];
        [destruct (errors_As_UnsupportedFieldError e)|];
        exact (frame_files _ _ _ F p Hp').
    + apply Forall_app. split; [exact Hno|]. repeat constructor. discriminate.
Qed.
End ScaffoldProperties.

Lemma table_paths_NoDup : NoDup (table_paths imageSubstitutions).
Proof.
  vm_compute. repeat (apply NoDup_cons; split);
    [| | |apply NoDup_nil; exact I];
    intros Hin; repeat (apply elem_of_cons in Hin as [Hin|Hin]; [discriminate|]);
    inversion Hin.
Qed.

Lemma table_perm_NoDup table :
  table ≡ₚ imageSubstitutions -> NoDup (table_paths table).
Proof.
  intros Hperm. unfold table_paths. rewrite Hperm. apply table_paths_NoDup.
Qed.

Lemma Scaffold_marker_errors_witness :
  snd (Scaffold sample_key imageSubstitutions (sample_world no_fault StoreV2))
    = inr tt /\
  exists msg,
    snd (Scaffold sample_key imageSubstitutions (sample_world no_fault StoreBroken))
      = inl (ErrorString msg) /\ str_contains msg sample_key.
Proof.
  split.
  - refine (proj1 (Scaffold_marker_errors sample_key imageSubstitutions
             (sample_world no_fault StoreV2) sample_key
             (UnsupportedFieldError "2" "plugins") _) eq_refl).
    vm_compute.
    repeat first [apply list_elem_of_here | apply list_elem_of_further].
  - refine (proj2 (Scaffold_marker_errors sample_key imageSubstitutions
             (sample_world no_fault StoreBroken) sample_key
             (Errno "input/output error") _) eq_refl).
    vm_compute.
    repeat first [apply list_elem_of_here | apply list_elem_of_further].
Defined.

Lemma Scaffold_untouched_witness :
  fs_files (w_fs (fst (Scaffold sample_key imageSubstitutions
                         (sample_world no_fault StoreV2)))) !! "README.md"
    = Some (File (B "golang:1.19 go 1.19") 420%N) /\
  Forall (fun ev => event_path ev <> Some "README.md")
    (calls (Scaffold sample_key imageSubstitutions) (sample_world no_fault StoreV2)).
Proof.
  assert ("README.md" ∉ table_paths imageSubstitutions) as Hp.
  { vm_compute. intros Hin.
    repeat (apply elem_of_cons in Hin as [Hin|Hin]; [discriminate|]).
    inversion Hin. }
  destruct (Scaffold_untouched sample_key imageSubstitutions
              (sample_world no_fault StoreV2) "README.md"
              (reflexivity _) Hp) as [Hfile Hcalls].
  split; [|exact Hcalls].
  rewrite Hfile. vm_compute. reflexivity.
Defined.

(** ** The applier: permissions and errors *)

(** C5. After a successful run of the applier every file of the table
    has the mode it had before, and each write was issued with the mode
    of the file as the preceding stat found it. *)
Theorem replaceImages_preserves_mode {C} table (w w' : World C) p :
  table ≡ₚ imageSubstitutions ->
  replaceImages table w = (w', inr tt) ->
  p ∈ table_paths imageSubstitutions ->
  exists f f',
    fs_files (w_fs w) !! p = Some f /\
    fs_files (w_fs w') !! p = Some f' /\
    f_mode f' = f_mode f /\
    forall d perm, CallWriteFile p d perm ∈ calls (replaceImages table) w ->
                   perm = f_mode f.
Proof.
  intros Hperm Hrun Hp.
  assert (p ∈ table_paths table) as Hp'.
  { unfold table_paths. rewrite Hperm. exact Hp. }
  apply list_elem_of_fmap in Hp' as ([p' rules] & -> & Hin). cbn [fst].
  destruct (replaceImages_ok table w w' (table_perm_NoDup _ Hperm) Hrun _ _ Hin)
    as (f & Hf & Hf' & _).
  exists f, (File (apply_substitutions rules (f_data f)) (f_mode f)).
  split; [exact Hf|]. split; [exact Hf'|]. split; [reflexivity|].
  intros d perm Hev.
  pose proof (replaceImages_frame _ _ _ _ Hrun) as F.
  destruct (frame_log _ _ _ F) as (evs & Hl & Hall).
  rewrite (calls_of_log _ _ evs) in Hev by (rewrite Hrun; exact Hl).
  rewrite Forall_forall in Hall. destruct (Hall _ Hev) as (q & Hq & _ & Hmode).
  injection Hq as <-. specialize (Hmode d perm eq_refl).
  rewrite Hf in Hmode. injection Hmode as <-. reflexivity.
Qed.

Lemma replaceImages_preserves_mode_witness :
  exists f',
    fs_files (w_fs (fst (replaceImages imageSubstitutions
                           (sample_world no_fault StoreV2)))) !! "go.mod" = Some f' /\
    f_mode f' = 384%N.
Proof.
  destruct (replaceImages imageSubstitutions (sample_world no_fault StoreV2))
    as [w' r] eqn:Hrun.
  assert (r = inr tt) as -> by (apply (f_equal snd) in Hrun; vm_compute in Hrun; congruence).
  assert ("go.mod" ∈ table_paths imageSubstitutions) as Hp.
  { vm_compute. repeat first [apply list_elem_of_here | apply list_elem_of_further]. }
  destruct (replaceImages_preserves_mode imageSubstitutions _ w' "go.mod"
              (reflexivity _) Hrun Hp) as (f & f' & Hf & Hf' & Hm & _).
  exists f'. split; [exact Hf'|]. rewrite Hm.
  vm_compute in Hf. injection Hf as <-. reflexivity.
Defined.

(** The three ways the applier fails. A read or stat failure comes back
    under a message that names the substitution; a write failure comes
    back as the filesystem gave it. *)
Lemma replaceImages_error_shape {C} table : forall (w w' : World C) e,
  replaceImages table w = (w', inl e) ->
  exists p (w0 : World C), p ∈ table_paths table /\
    fs_fault (w_fs w0) = fs_fault (w_fs w) /\
    ((exists e0, fs_ReadFile (w_fs w0) p = inl e0 /\ e = read_ctx e0) \/
     (exists e0, fs_Stat (w_fs w0) p = inl e0 /\ e = stat_ctx e0) \/
     fs_fault (w_fs w) OpWrite p = Some e).
Proof.
  induction table as [|[p0 rules0] table IH]; intros w w' e; cbn [replaceImages].
  { discriminate. }
  unfold bind. destruct (replaceImages_entry p0 rules0 w) as [w1 [e1|[]]] eqn:He.
  - intros [= <- <-]. exists p0, w. split; [left|]. split; [reflexivity|].
    rewrite replaceImages_entry_eq in He.
    destruct (fs_ReadFile (w_fs w) p0) as [e0|b] eqn:Hr.
    { injection He as _ <-. left. eauto. }
    destruct (fs_Stat (w_fs w) p0) as [e0|mode] eqn:Hs.
    { injection He as _ <-. right. left. eauto. }
    cbv zeta in He. unfold fs_WriteFile in He.
    destruct (fs_fault (w_fs w) OpWrite p0) as [e0|]; [|discriminate].
    injection He as _ <-. right. right. reflexivity.
  - intros Hrest. apply IH in Hrest as (p & w0 & Hp & Hfault & Hshape).
    pose proof (frame_fault _ _ _ (replaceImages_entry_frame _ _ _ _ _ He)) as Hf1.
    exists p, w0. split; [right; exact Hp|]. split; [congruence|].
    rewrite Hf1 in Hshape. exact Hshape.
Qed.

(** C4 does not hold on the write path. On a read-only filesystem that
    holds every file of the table, the applier returns the error of the
    filesystem as it is: no substitution context and no path in it,
    where a read or a stat failure is wrapped (lemma above). *)
Theorem replaceImages_write_error_bare :
  let r := snd (replaceImages imageSubstitutions (sample_world read_only StoreV2)) in
  r = inl (Errno "operation not permitted") /\
  (forall e, r = inl e ->
     index 0 "substitution" (Error e) = None /\
     Forall (fun p => index 0 p (Error e) = None) (table_paths imageSubstitutions)).
Proof.
  vm_compute. split; [reflexivity|]. intros e [= <-].
  split; [reflexivity|]. repeat constructor.
Qed.

(** ** The table, rule by rule *)

Lemma imageSubstitutions_named :
  imageSubstitutions =
  [ ("config/default/manager_auth_proxy_patch.yaml", patch_rules);
    ("Dockerfile", Dockerfile_rules);
    ("go.mod", go_mod_rules) ].
Proof. reflexivity. Qed.

(** Every pattern of the table compiles; [MustCompile] does not panic. *)
Lemma table_patterns_compile :
  Forall (fun pattern => exists re, compile pattern = Some re /\ MustCompile pattern = re)
    [ "gcr.io/kubebuilder/kube-rbac-proxy:[^ \n]+";
      "quay.io/operator-framework/ansible-operator:[^ \n]+";
      "quay.io/operator-framework/helm-operator:[^ \n]+";
      "gcr.io/distroless/static:[^ \n]+";
      "golang:[^ \n]+";
      "registry.access.redhat.com/ubi8/ubi-micro:[^ \n]+";
      "golang.org/x/net [^ \n]+";
      "go 1.[^2\n]+" ].
Proof. repeat constructor; eexists; split; vm_compute; reflexivity. Qed.

Lemma apply_substitutions_cons subst rules b :
  apply_substitutions (subst :: rules) b =
  apply_substitutions rules (subst_apply subst b).
Proof. reflexivity. Qed.

Lemma apply_substitutions_app r1 r2 b :
  apply_substitutions (r1 ++ r2) b = apply_substitutions r2 (apply_substitutions r1 b).
Proof. unfold apply_substitutions. apply fold_left_app. Qed.

(** ** Decoding one rune *)

Lemma is_cont_not_ascii b : is_ascii b = true -> is_cont b = false.
Proof.
  unfold is_ascii, is_cont, byte_in. intros Ha.
  apply N.ltb_lt in Ha. apply andb_false_iff. left. apply N.leb_gt. lia.
Qed.

Lemma byte_in_not_ascii lo hi b :
  (128 <= lo)%N -> is_ascii b = true -> byte_in lo hi b = false.
Proof.
  unfold is_ascii, byte_in. intros Hlo Ha.
  apply N.ltb_lt in Ha. apply andb_false_iff. left. apply N.leb_gt. lia.
Qed.

Lemma utf8_first_range b sz lo hi :
  utf8_first b = Some (sz, (lo, hi)) -> (128 <= lo)%N /\ is_ascii b = false.
Proof.
  unfold utf8_first, is_ascii.
  destruct (N.ltb (Byte.to_N b) 194) eqn:H194; [discriminate|].
  apply N.ltb_ge in H194.
  assert (N.ltb (Byte.to_N b) 128 = false) as -> by (apply N.ltb_ge; lia).
  repeat match goal with
  | |- context [if ?c then _ else _] => destruct c
  end; intros [= <- <- <-] || discriminate; split; (lia || reflexivity).
Qed.

Lemma utf8_first_ascii b : is_ascii b = true -> utf8_first b = None.
Proof.
  intros Ha. destruct (utf8_first b) as [[sz [lo hi]]|] eqn:Hf; [|reflexivity].
  apply utf8_first_range in Hf as [_ Hf]. congruence.
Qed.

(** An ASCII byte ends every rune that starts before it: the width of
    the first rune of [w ++ a :: t] is decided within [w]. *)
Lemma rune_width_before_ascii w a t :
  w <> [] -> is_ascii a = true ->
  rune_width (w ++ a :: t) = rune_width w /\ 1 <= rune_width w <= length w.
Proof.
  intros Hw Ha. destruct w as [|p0 q]; [congruence|]. clear Hw.
  cbn [app rune_width length].
  destruct (utf8_first p0) as [[sz [lo hi]]|] eqn:Hf; [|lia].
  apply utf8_first_range in Hf as [Hlo _].
  destruct q as [|b1 q1]; cbn [app length].
  { rewrite (byte_in_not_ascii lo hi a Hlo Ha). cbn. lia. }
  destruct (negb (byte_in lo hi b1)); [lia|].
  destruct (Nat.leb sz 2); [lia|].
  destruct q1 as [|b2 q2]; cbn [app length].
  { rewrite (is_cont_not_ascii a Ha). cbn. lia. }
  destruct (negb (is_cont b2)); [lia|].
  destruct (Nat.leb sz 3); [lia|].
  destruct q2 as [|b3 q3]; cbn [app length].
  { rewrite (is_cont_not_ascii a Ha). cbn. lia. }
  destruct (negb (is_cont b3)); lia.
Qed.

Lemma rune_width_ascii a t : is_ascii a = true -> rune_width (a :: t) = 1.
Proof. intros Ha. cbn. rewrite (utf8_first_ascii a Ha). reflexivity. Qed.

(** ** Feeding the atoms a known beginning *)

Lemma feed_app_ascii p : forall s t,
  forallb is_ascii s = true ->
  match_prefix p (s ++ t) =
  match feed p s with
  | Done w1 => Some (w1 ++ t)
  | Fail => None
  | More p' => match_prefix p' t
  end.
Proof.
  induction p as [|a p IH]; intros s t Hs; [reflexivity|].
  destruct s as [|b s]; [reflexivity|].
  cbn [forallb] in Hs. apply andb_true_iff in Hs as [Hb Hs].
  cbn [app match_prefix feed]. destruct a as [c|].
  - destruct (Byte.eqb b c); [apply IH; exact Hs|reflexivity].
  - destruct (Byte.eqb b nl); [reflexivity|].
    rewrite (rune_width_ascii b (s ++ t) Hb), (rune_width_ascii b s Hb).
    cbn [drop]. apply IH. exact Hs.
Qed.

Lemma feed_app p : forall w a t,
  is_ascii a = true ->
  match_prefix p (w ++ a :: t) =
  match feed p w with
  | Done w1 => Some (w1 ++ a :: t)
  | Fail => None
  | More p' => match_prefix p' (a :: t)
  end.
Proof.
  induction p as [|x p IH]; intros w a t Ha; [reflexivity|].
  destruct w as [|b w]; [reflexivity|].
  cbn [match_prefix feed]. change ((b :: w) ++ a :: t) with (b :: (w ++ a :: t)).
  cbn iota. destruct x as [c|].
  - destruct (Byte.eqb b c); [apply IH; exact Ha|reflexivity].
  - destruct (Byte.eqb b nl); [reflexivity|].
    change (b :: (w ++ a :: t)) with ((b :: w) ++ a :: t).
    destruct (rune_width_before_ascii (b :: w) a t ltac:(discriminate) Ha)
      as [-> [_ Hle]].
    rewrite drop_app_le by exact Hle. apply IH. exact Ha.
Qed.

Lemma tails_ne_tail {A} (l l' : list A) : l' ∈ tails_ne (tail l) -> l' ∈ tails_ne l.
Proof. destruct l as [|x l]; [auto|]. cbn. intros Hin. right. exact Hin. Qed.

Lemma feed_More_tails p : forall w p', feed p w = More p' -> p' ∈ tails_ne p.
Proof.
  induction p as [|a p IH]; intros w p' Hf; [discriminate|].
  destruct w as [|b w]; cbn in Hf.
  - injection Hf as <-. left.
  - right. destruct a as [c|].
    + destruct (Byte.eqb b c); [eapply IH; exact Hf|discriminate].
    + destruct (Byte.eqb b nl); [discriminate|eapply IH; exact Hf].
Qed.

Lemma feed_More_proper p w p' :
  w <> [] -> feed p w = More p' -> p' ∈ tails_ne (tail p).
Proof.
  intros Hw Hf. destruct p as [|a p]; [discriminate|].
  destruct w as [|b w]; [congruence|]. cbn in Hf. cbn [tail]. destruct a as [c|].
  - destruct (Byte.eqb b c); [eapply feed_More_tails; exact Hf|discriminate].
  - destruct (Byte.eqb b nl); [discriminate|eapply feed_More_tails; exact Hf].
Qed.

(** On ASCII input every atom takes one byte: input as long as the
    prefix is never used up. *)
Lemma feed_ascii_long p : forall s t p',
  forallb is_ascii s = true -> length p <= length s ->
  feed p (s ++ t) <> More p'.
Proof.
  induction p as [|a p IH]; intros s t p' Hs Hl; [discriminate|].
  destruct s as [|b s]; [cbn in Hl; lia|].
  cbn [forallb] in Hs. apply andb_true_iff in Hs as [Hb Hs].
  cbn [length] in Hl. cbn [app feed]. destruct a as [c|].
  - destruct (Byte.eqb b c); [apply IH; [exact Hs|lia]|discriminate].
  - destruct (Byte.eqb b nl); [discriminate|].
    rewrite (rune_width_ascii b (s ++ t) Hb). cbn [drop].
    apply IH; [exact Hs|lia].
Qed.

(** ** The greedy class *)

Lemma skip_class_stops excl s : stops excl (skip_class excl s).
Proof.
  induction s as [|b s IH]; [exact I|]. cbn.
  destruct (existsb (Byte.eqb b) excl) eqn:Hb; [exact Hb|exact IH].
Qed.

Lemma match_class_stops excl s rest :
  match_class excl s = Some rest -> stops excl rest.
Proof.
  destruct s as [|b s]; cbn; [discriminate|].
  destruct (existsb (Byte.eqb b) excl); [discriminate|].
  intros [= <-]. apply skip_class_stops.
Qed.

Lemma matchp_stops p excl s rest :
  matchp p excl s = Some rest -> stops excl rest.
Proof.
  unfold matchp. destruct (match_prefix p s); [|discriminate].
  apply match_class_stops.
Qed.

Lemma skip_class_run excl run t :
  forallb (fun b => negb (existsb (Byte.eqb b) excl)) run = true ->
  stops excl t -> skip_class excl (run ++ t) = t.
Proof.
  induction run as [|b run IH]; intros Hrun Ht; cbn.
  - destruct t as [|d t]; [reflexivity|]. cbn in Ht |- *. rewrite Ht. reflexivity.
  - cbn in Hrun. apply andb_true_iff in Hrun as [Hb Hrun].
    apply negb_true_iff in Hb. rewrite Hb. apply IH; assumption.
Qed.

Lemma match_class_stop excl t : stops excl t -> match_class excl t = None.
Proof. destruct t as [|d t]; cbn; [reflexivity|]. intros ->. reflexivity. Qed.

(** ** The analyser is sound *)

Lemma analyse_NoMatch p excl s t :
  forallb is_ascii s = true ->
  analyse p excl s = NoMatch -> matchp p excl (s ++ t) = None.
Proof.
  intros Hs. unfold analyse, matchp. rewrite (feed_app_ascii p s t Hs).
  destruct (feed p s) as [|[|c w1]|p']; try discriminate; [reflexivity|].
  cbn. destruct (existsb (Byte.eqb c) excl); [reflexivity|].
  destruct (forallb _ w1); discriminate.
Qed.

Lemma analyse_NoMatchAtStop p excl s t :
  forallb is_ascii s = true -> stops excl t ->
  analyse p excl s = NoMatchAtStop -> matchp p excl (s ++ t) = None.
Proof.
  intros Hs Ht. unfold analyse, matchp. rewrite (feed_app_ascii p s t Hs).
  destruct (feed p s) as [|[|c w1]|p']; try discriminate.
  - intros _. cbn. apply match_class_stop. exact Ht.
  - destruct (existsb (Byte.eqb c) excl); [discriminate|].
    destruct (forallb _ w1); discriminate.
Qed.

Lemma analyse_ExactMatch p excl s t :
  forallb is_ascii s = true -> stops excl t ->
  analyse p excl s = ExactMatch -> matchp p excl (s ++ t) = Some t.
Proof.
  intros Hs Ht. unfold analyse, matchp. rewrite (feed_app_ascii p s t Hs).
  destruct (feed p s) as [|[|c w1]|p']; try discriminate.
  cbn. destruct (existsb (Byte.eqb c) excl); [discriminate|].
  destruct (forallb _ w1) eqn:Hw; [|discriminate].
  intros _. rewrite skip_class_run by assumption. reflexivity.
Qed.

Lemma forallb_ascii_tails s s' :
  forallb is_ascii s = true -> s' ∈ tails_ne s -> forallb is_ascii s' = true.
Proof.
  induction s as [|b s IH]; intros Hs Hin; [inversion Hin|].
  cbn in Hin. apply elem_of_cons in Hin as [->|Hin]; [exact Hs|].
  cbn in Hs. apply andb_true_iff in Hs as [_ Hs]. auto.
Qed.

Lemma absent_in_sound re s s' t :
  forallb is_ascii s = true -> absent_in re s = true ->
  s' ∈ tails_ne s -> match_at re (s' ++ t) = None.
Proof.
  intros Hs Ha Hin. unfold absent_in in Ha. rewrite forallb_forall in Ha.
  apply analyse_NoMatch.
  - eapply forallb_ascii_tails; eassumption.
  - apply list_elem_of_In in Hin. specialize (Ha s' Hin).
    destruct (analyse _ _ s'); (reflexivity || discriminate).
Qed.

(** ** Well-formed rules *)

Lemma rule_wf_inv re repl :
  rule_wf re repl = true ->
  exists c0 p1 r0 r1,
    re_prefix re = Lit c0 :: p1 /\ repl = r0 :: r1 /\
    is_ascii c0 = true /\ existsb (Byte.eqb c0) (re_excl re) = false /\
    is_ascii r0 = true /\ existsb (Byte.eqb r0) (re_excl re) = false /\
    forallb is_ascii repl = true /\
    length (re_prefix re) <= length repl.
Proof.
  unfold rule_wf. destruct (re_prefix re) as [|[c0|] p1]; cbn [first_lit];
    try discriminate.
  destruct repl as [|r0 r1]; [discriminate|].
  rewrite !andb_true_iff, !negb_true_iff.
  intros (((((Hc0 & Hc0e) & Hr0e) & Hr) & _) & Hlen).
  apply Nat.leb_le in Hlen.
  exists c0, p1, r0, r1. repeat split; try assumption.
  cbn in Hr. apply andb_true_iff in Hr as [Hr0 _]. exact Hr0.
Qed.

Section Rule.
Variables (re : regex) (repl : bytes).
Hypothesis Hwf : rule_wf re repl = true.

Lemma match_at_head s rest :
  match_at re s = Some rest ->
  exists c s', s = c :: s' /\ is_ascii c = true /\
               existsb (Byte.eqb c) (re_excl re) = false.
Proof.
  destruct (rule_wf_inv _ _ Hwf) as (c0 & p1 & _ & _ & Hp & _ & Hc0 & Hc0e & _).
  unfold match_at, matchp. rewrite Hp. destruct s as [|b s]; cbn; [discriminate|].
  destruct (Byte.eqb b c0) eqn:Hb; [|discriminate].
  apply byte_dec_bl in Hb as ->. intros _. eauto.
Qed.

Lemma match_at_stop t : stops (re_excl re) t -> match_at re t = None.
Proof.
  intros Ht. destruct (match_at re t) as [rest|] eqn:Hm; [|reflexivity].
  apply match_at_head in Hm as (c & s' & -> & _ & Hc).
  cbn in Ht. congruence.
Qed.

Lemma stops_ReplaceAll t :
  stops (re_excl re) t -> stops (re_excl re) (ReplaceAll re t repl).
Proof.
  intros Ht. destruct t as [|d t]; [exact I|].
  rewrite ReplaceAll_skip by (apply match_at_stop; exact Ht). exact Ht.
Qed.

Lemma head_ok_of_none s : match_at re s = None -> head_ok re repl s.
Proof. intros Hn rest Hm. congruence. Qed.

Lemma settled_nil : settled re repl [].
Proof.
  split; [|exact I]. apply head_ok_of_none. apply match_at_stop. exact I.
Qed.

Lemma settled_drop_app a b : settled re repl (a ++ b) -> settled re repl b.
Proof.
  induction a as [|x a IH]; [auto|]. cbn [app settled]. intros [_ Hs]. auto.
Qed.

(** Settled content is a fixed point of the rule. *)
Lemma settled_fixed s : settled re repl s -> ReplaceAll re s repl = s.
Proof.
  induction s as [s IH] using length_ind. intros Hs.
  destruct s as [|b s]; [reflexivity|].
  destruct (match_at re (b :: s)) as [rest|] eqn:Hm.
  - rewrite (ReplaceAll_match _ _ _ _ Hm).
    destruct Hs as [Hh Hs]. pose proof (Hh _ Hm) as Heq.
    rewrite IH.
    + symmetry. exact Heq.
    + apply (match_at_length _ _ _ Hm).
    + apply (settled_drop_app repl). rewrite <- Heq. split; assumption.
  - rewrite (ReplaceAll_skip _ _ _ _ Hm). f_equal.
    apply IH; [cbn; lia|]. destruct Hs as [_ Hs]. exact Hs.
Qed.

Lemma settled_app r t :
  (forall r', r' ∈ tails_ne r -> head_ok re repl (r' ++ t)) ->
  settled re repl t -> settled re repl (r ++ t).
Proof.
  induction r as [|x r IH]; intros Hh Ht; [exact Ht|].
  cbn [app settled]. split.
  - apply (Hh (x :: r)). left.
  - apply IH; [|exact Ht]. intros r' Hin. apply Hh. right. exact Hin.
Qed.

(** After a replacement: the replacement followed by settled content
    that stops the class is settled. *)
Lemma settled_repl_app t :
  repl_settled re repl = true ->
  stops (re_excl re) t -> settled re repl t -> settled re repl (repl ++ t).
Proof.
  intros Hrs Hst Ht.
  destruct (rule_wf_inv _ _ Hwf) as (c0 & p1 & r0 & r1 & _ & Hr & _ & _ & _ & _ & Hra & _).
  unfold repl_settled in Hrs. apply andb_true_iff in Hrs as [Htl Hhd].
  apply settled_app; [|exact Ht]. intros r' Hin.
  rewrite Hr in Hin. cbn [tails_ne] in Hin.
  apply elem_of_cons in Hin as [->|Hin].
  - rewrite <- Hr. intros rest Hm. unfold match_at in Hm.
    destruct (analyse (re_prefix re) (re_excl re) repl) eqn:Han;
      try discriminate.
    + rewrite (analyse_NoMatch _ _ _ t Hra Han) in Hm. discriminate.
    + rewrite (analyse_NoMatchAtStop _ _ _ t Hra Hst Han) in Hm. discriminate.
    + rewrite (analyse_ExactMatch _ _ _ t Hra Hst Han) in Hm.
      injection Hm as <-. reflexivity.
  - apply head_ok_of_none. eapply absent_in_sound; [| |exact Hin].
    + rewrite Hr in Hra. cbn in Hra. apply andb_true_iff in Hra as [_ Hra].
      exact Hra.
    + rewrite Hr in Htl. exact Htl.
Qed.
End Rule.

(** ** A failed attempt stays failed

    [w ++ y] and [w ++ z] agree on [w]; if the attempt at the head of the
    first fails, so does the attempt at the head of the second, as long
    as [z] does not let a suffix of the prefix through that [y] stopped. *)
Lemma none_carries p excl w a y a' z :
  w <> [] ->
  is_ascii a = true -> existsb (Byte.eqb a) excl = false ->
  is_ascii a' = true -> existsb (Byte.eqb a') excl = false ->
  (forall p', p' ∈ tails_ne (tail p) ->
     matchp p' excl (a :: y) = None -> matchp p' excl (a' :: z) = None) ->
  matchp p excl (w ++ a :: y) = None -> matchp p excl (w ++ a' :: z) = None.
Proof.
  intros Hw Ha Hae Ha' Hae' Hbase. unfold matchp.
  rewrite (feed_app p w a y Ha), (feed_app p w a' z Ha').
  destruct (feed p w) as [|w1|p'] eqn:Hf.
  - reflexivity.
  - destruct w1 as [|b w1]; cbn.
    + rewrite Hae. discriminate.
    + destruct (existsb (Byte.eqb b) excl); [reflexivity|discriminate].
  - apply (Hbase p'). eapply feed_More_proper; eassumption.
Qed.

Lemma match_prefix_suffix p : forall s s1,
  match_prefix p s = Some s1 -> exists u, s = u ++ s1.
Proof.
  induction p as [|a p IH]; intros s s1 Hm; cbn in Hm.
  - injection Hm as <-. exists []. reflexivity.
  - destruct s as [|b s]; [destruct a; discriminate|]. destruct a as [c|].
    + destruct (Byte.eqb b c); [|discriminate].
      destruct (IH _ _ Hm) as [u ->]. exists (b :: u). reflexivity.
    + destruct (Byte.eqb b nl); [discriminate|].
      destruct (IH _ _ Hm) as [u Hu].
      exists (take (rune_width (b :: s)) (b :: s) ++ u).
      rewrite <- app_assoc, <- Hu. symmetry. apply take_drop.
Qed.

Lemma skip_class_suffix excl s : exists run, s = run ++ skip_class excl s.
Proof.
  induction s as [|b s [run IH]]; [exists []; reflexivity|]. cbn.
  destruct (existsb (Byte.eqb b) excl); [exists []; reflexivity|].
  exists (b :: run). cbn. congruence.
Qed.

Lemma matchp_suffix p excl s rest :
  matchp p excl s = Some rest -> exists m, s = m ++ rest.
Proof.
  unfold matchp. destruct (match_prefix p s) as [s1|] eqn:Hp; [|discriminate].
  destruct (match_prefix_suffix _ _ _ Hp) as [u ->].
  destruct s1 as [|b s1]; cbn; [discriminate|].
  destruct (existsb (Byte.eqb b) excl); [discriminate|]. intros [= <-].
  destruct (skip_class_suffix excl s1) as [run Hrun].
  exists (u ++ b :: run). rewrite <- app_assoc. cbn. congruence.
Qed.

Lemma skip_class_fixed_run excl u t :
  skip_class excl (u ++ t) = t ->
  forallb (fun b => negb (existsb (Byte.eqb b) excl)) u = true.
Proof.
  induction u as [|e u IH]; [reflexivity|]. cbn.
  destruct (existsb (Byte.eqb e) excl).
  - intros Heq. apply (f_equal length) in Heq. cbn in Heq.
    rewrite length_app in Heq. lia.
  - exact IH.
Qed.

(** A match that ends at an excluded byte does not depend on what comes
    after that byte. *)
Lemma matchp_local p excl r d X X' :
  forallb is_ascii r = true -> length p <= length r ->
  existsb (Byte.eqb d) excl = true ->
  matchp p excl (r ++ d :: X) = Some (d :: X) ->
  matchp p excl (r ++ d :: X') = Some (d :: X').
Proof.
  intros Hr Hlen Hd. unfold matchp.
  rewrite (feed_app_ascii p r (d :: X) Hr), (feed_app_ascii p r (d :: X') Hr).
  pose proof (feed_ascii_long p r [] ) as Hlong. rewrite app_nil_r in Hlong.
  destruct (feed p r) as [|w1|p'] eqn:Hf.
  - discriminate.
  - destruct w1 as [|c w1]; cbn.
    + rewrite Hd. discriminate.
    + destruct (existsb (Byte.eqb c) excl); [discriminate|].
      intros [= Hs]. apply skip_class_fixed_run in Hs.
      rewrite skip_class_run; [reflexivity|exact Hs|cbn; exact Hd].
  - exfalso. exact (Hlong p' Hr Hlen eq_refl).
Qed.

Lemma tails_ne_app {A} (q l : list A) : l <> [] -> l ∈ tails_ne (q ++ l).
Proof.
  intros Hl. induction q as [|x q IH]; cbn.
  - destruct l; [congruence|]. left.
  - right. exact IH.
Qed.

Lemma first_lit_head re s rest c0 :
  first_lit (re_prefix re) = Some c0 ->
  match_at re s = Some rest -> exists s', s = c0 :: s'.
Proof.
  unfold match_at, matchp. destruct (re_prefix re) as [|[c|] p1]; try discriminate.
  intros [= ->]. destruct s as [|b s]; cbn; [discriminate|].
  destruct (Byte.eqb b c0) eqn:Hb; [|discriminate].
  apply byte_dec_bl in Hb as ->. eauto.
Qed.

(** ** One rule applied twice *)

Section Idempotent.
Variables (re : regex) (repl : bytes).
Hypothesis Hwf : rule_wf re repl = true.
Hypothesis Hrs : repl_settled re repl = true.
(** Where the input had a match, the replacement lets no suffix of
    the prefix through that the match itself stopped. *)
Hypothesis Hbase : forall p', p' ∈ tails_ne (tail (re_prefix re)) ->
  forall y rest t, match_at re y = Some rest ->
    matchp p' (re_excl re) y = None ->
    matchp p' (re_excl re) (repl ++ t) = None.

Lemma carry_none : forall x w,
  w <> [] -> match_at re (w ++ x) = None ->
  match_at re (w ++ ReplaceAll re x repl) = None.
Proof.
  intros x. induction x as [|b src Hm IH|src rest Hm IH] using (scan_ind re);
    intros w Hw Hn.
  - exact Hn.
  - rewrite (ReplaceAll_skip _ _ _ _ Hm).
    rewrite (cons_middle b w), app_assoc. apply IH.
    + destruct w; discriminate.
    + rewrite <- app_assoc. exact Hn.
  - rewrite (ReplaceAll_match _ _ _ _ Hm).
    destruct (match_at_head _ _ Hwf _ _ Hm) as (a & y & -> & Ha & Hae).
    destruct (rule_wf_inv _ _ Hwf)
      as (c0 & p1 & r0 & r1 & _ & Hr & _ & _ & Hr0 & Hr0e & _).
    rewrite Hr. cbn [app].
    apply (none_carries _ _ w a y r0 _ Hw Ha Hae Hr0 Hr0e); [|exact Hn].
    intros p' Hp' Hnone.
    change (r0 :: r1 ++ ReplaceAll re rest (r0 :: r1))
      with ((r0 :: r1) ++ ReplaceAll re rest (r0 :: r1)).
    rewrite <- Hr. exact (Hbase p' Hp' _ _ _ Hm Hnone).
Qed.

(** Whatever the input, the output of the rule is settled. *)
Theorem ReplaceAll_settled x : settled re repl (ReplaceAll re x repl).
Proof.
  induction x as [|b src Hm IH|src rest Hm IH] using (scan_ind re).
  - apply settled_nil. exact Hwf.
  - rewrite (ReplaceAll_skip _ _ _ _ Hm). split; [|exact IH].
    apply head_ok_of_none. apply (carry_none src [b]); [discriminate|exact Hm].
  - rewrite (ReplaceAll_match _ _ _ _ Hm).
    apply settled_repl_app; [exact Hwf|exact Hrs| |exact IH].
    apply stops_ReplaceAll; [exact Hwf|]. eapply matchp_stops. exact Hm.
Qed.

Corollary ReplaceAll_idempotent x :
  ReplaceAll re (ReplaceAll re x repl) repl = ReplaceAll re x repl.
Proof. apply settled_fixed. apply ReplaceAll_settled. Qed.
End Idempotent.

Lemma no_overlap_base re repl :
  rule_wf re repl = true -> no_overlap re repl = true ->
  forall p', p' ∈ tails_ne (tail (re_prefix re)) ->
    forall t, matchp p' (re_excl re) (repl ++ t) = None.
Proof.
  intros Hwf Hno p' Hp' t.
  destruct (rule_wf_inv _ _ Hwf) as (_ & _ & _ & _ & _ & _ & _ & _ & _ & _ & Hra & _).
  unfold no_overlap in Hno. rewrite forallb_forall in Hno.
  apply list_elem_of_In in Hp'. specialize (Hno p' Hp').
  apply analyse_NoMatch; [exact Hra|].
  destruct (analyse p' (re_excl re) repl); (reflexivity || discriminate).
Qed.

(** ** A later rule keeps what an earlier rule settled *)

Lemma pair_ok_inv rej replj rek replk :
  pair_ok rej replj rek replk = true ->
  absent_in rej replk = true /\ no_overlap rej replk = true /\
  absent_in rek (tail replj) = true /\
  exists c0 r0 r1, first_lit (re_prefix rek) = Some c0 /\ replk = r0 :: r1 /\
    existsb (Byte.eqb c0) (re_excl rej) = false /\
    existsb (Byte.eqb r0) (re_excl rej) = false.
Proof.
  unfold pair_ok. rewrite !andb_true_iff. intros (((Ha & Hno) & Hb) & Hd).
  repeat split; try assumption.
  destruct (first_lit (re_prefix rek)) as [c0|]; [|discriminate].
  destruct replk as [|r0 r1]; [discriminate|].
  apply andb_true_iff in Hd as [Hc Hr]. apply negb_true_iff in Hc, Hr.
  exists c0, r0, r1. auto.
Qed.

Section Preserve.
Variables (rej : regex) (replj : bytes) (rek : regex) (replk : bytes).
Hypothesis Hwfj : rule_wf rej replj = true.
Hypothesis Hwfk : rule_wf rek replk = true.
Hypothesis Hpair : pair_ok rej replj rek replk = true.

(** Where rule [k] replaces a match that follows [w], an occurrence
    of pattern [j] at the head of [w] is as it was. *)
Lemma carry_head_ok w y rest t :
  match_at rek y = Some rest -> w <> [] ->
  head_ok rej replj (w ++ y) -> head_ok rej replj (w ++ replk ++ t).
Proof.
  intros Hmk Hw Hh rest' Hm'.
  destruct (pair_ok_inv _ _ _ _ Hpair)
    as (Habs & Hno & Habs' & c0 & r0 & r1 & Hc0 & Hrk & Hc0e & Hr0e).
  destruct (rule_wf_inv _ _ Hwfj)
    as (_ & _ & j0 & j1 & _ & Hrj & _ & _ & _ & _ & Hrja & Hlenj).
  destruct (rule_wf_inv _ _ Hwfk)
    as (c0' & pk & r0' & r1' & Hpk & Hrk' & Hc0a & _ & Hr0a & _ & Hrka & _).
  assert (c0' = c0) as -> by (rewrite Hpk in Hc0; cbn in Hc0; congruence).
  assert (r0' = r0) as -> by congruence.
  destruct (first_lit_head _ _ _ _ Hc0 Hmk) as [y' ->].
  destruct (match_at rej (w ++ c0 :: y')) as [restj|] eqn:Hmj.
  - pose proof (Hh _ Hmj) as Heq.
    pose proof (matchp_stops _ _ _ _ Hmj) as Hst.
    apply app_eq_app in Heq as [l [[Hw' Hrest]|[Hrj' Hy]]].
    + (* the replacement of [j] ends inside [w] *)
      destruct l as [|d l].
      { rewrite Hrest in Hst. cbn in Hst. congruence. }
      assert (existsb (Byte.eqb d) (re_excl rej) = true) as Hd.
      { rewrite Hrest in Hst. exact Hst. }
      subst w restj. rewrite <- !app_assoc in Hm', Hmj |- *. cbn [app] in *.
      unfold match_at in Hm'.
      rewrite (matchp_local _ _ replj d (l ++ c0 :: y') (l ++ replk ++ t)
                 Hrja Hlenj Hd Hmj) in Hm'.
      injection Hm' as <-. reflexivity.
    + (* it reaches into the match of [k] *)
      destruct l as [|x l].
      { cbn in Hy. rewrite <- Hy in Hst. cbn in Hst. congruence. }
      exfalso.
      assert ((x :: l) ∈ tails_ne (tail replj)) as Hin.
      { rewrite Hrj'. destruct w as [|b w]; [congruence|]. cbn [app tail].
        apply tails_ne_app. discriminate. }
      assert (forallb is_ascii (tail replj) = true) as Hta.
      { rewrite Hrj in Hrja |- *. cbn in Hrja |- *.
        apply andb_true_iff in Hrja as [_ Hrja]. exact Hrja. }
      pose proof (absent_in_sound rek _ _ restj Hta Habs' Hin) as Hnone.
      rewrite <- Hy in Hnone. congruence.
  - exfalso. rewrite Hrk in Hm'. cbn [app] in Hm'.
    assert (match_at rej (w ++ r0 :: r1 ++ t) = None) as Hnone; [|congruence].
    apply (none_carries _ _ w c0 y' r0 (r1 ++ t) Hw Hc0a Hc0e Hr0a Hr0e);
      [|exact Hmj].
    intros p' Hp' _.
    change (r0 :: r1 ++ t) with ((r0 :: r1) ++ t). rewrite <- Hrk.
    unfold no_overlap in Hno. rewrite forallb_forall in Hno.
    apply list_elem_of_In in Hp'. specialize (Hno p' Hp').
    apply analyse_NoMatch; [exact Hrka|].
    destruct (analyse p' (re_excl rej) replk); (reflexivity || discriminate).
Qed.

Lemma carry_head_ok_scan : forall y w,
  w <> [] -> head_ok rej replj (w ++ y) ->
  head_ok rej replj (w ++ ReplaceAll rek y replk).
Proof.
  intros y. induction y as [|b src Hm IH|src rest Hm IH] using (scan_ind rek);
    intros w Hw Hh.
  - exact Hh.
  - rewrite (ReplaceAll_skip _ _ _ _ Hm).
    rewrite (cons_middle b w), app_assoc. apply IH.
    + destruct w; discriminate.
    + rewrite <- app_assoc. exact Hh.
  - rewrite (ReplaceAll_match _ _ _ _ Hm).
    eapply carry_head_ok; eassumption.
Qed.

(** Content settled for rule [j] is still settled for [j] after rule
    [k] has run over it. *)
Theorem settled_preserved y :
  settled rej replj y -> settled rej replj (ReplaceAll rek y replk).
Proof.
  destruct (pair_ok_inv _ _ _ _ Hpair) as (Habs & _).
  destruct (rule_wf_inv _ _ Hwfk)
    as (_ & _ & _ & _ & _ & _ & _ & _ & _ & _ & Hrka & _).
  induction y as [|b src Hm IH|src rest Hm IH] using (scan_ind rek); intros Hs.
  - exact Hs.
  - rewrite (ReplaceAll_skip _ _ _ _ Hm). destruct Hs as [Hh Hs].
    split; [|apply IH; exact Hs].
    apply (carry_head_ok_scan src [b]); [discriminate|exact Hh].
  - rewrite (ReplaceAll_match _ _ _ _ Hm).
    destruct (matchp_suffix _ _ _ _ Hm) as [m Hsrc].
    apply settled_app.
    + intros r' Hin. apply head_ok_of_none.
      eapply absent_in_sound; eassumption.
    + apply IH. apply (settled_drop_app _ _ m). rewrite <- Hsrc. exact Hs.
Qed.
End Preserve.

(** ** A pipeline applied twice *)

Lemma apply_substitutions_keeps j rest : forall y,
  Forall (rule_keeps j) rest ->
  settled (fromTagRE j) (B (toTag j)) y ->
  settled (fromTagRE j) (B (toTag j)) (apply_substitutions rest y).
Proof.
  induction rest as [|k rest IH]; intros y Hk Hy; [exact Hy|].
  rewrite apply_substitutions_cons. inversion Hk as [|? ? Hk1 Hk2]; subst.
  apply IH; [exact Hk2|]. apply Hk1. exact Hy.
Qed.

Lemma pipeline_settled rules : forall b,
  pipeline_ok rules ->
  Forall (fun j => settled (fromTagRE j) (B (toTag j)) (apply_substitutions rules b))
         rules.
Proof.
  induction rules as [|j rest IH]; intros b Hok; [constructor|].
  destruct Hok as (Hj & Hkeeps & Hrest). rewrite apply_substitutions_cons.
  constructor.
  - apply apply_substitutions_keeps; [exact Hkeeps|apply Hj].
  - apply IH. exact Hrest.
Qed.



(** ** The rules of the table are idempotent, alone and in their order *)

Lemma rule_settles_of_checks j :
  rule_wf (fromTagRE j) (B (toTag j)) = true ->
  repl_settled (fromTagRE j) (B (toTag j)) = true ->
  no_overlap (fromTagRE j) (B (toTag j)) = true ->
  rule_settles j.
Proof.
  intros Hwf Hrs Hno x. apply ReplaceAll_settled; [exact Hwf|exact Hrs|].
  intros p' Hp' y rest t _ _. apply no_overlap_base; assumption.
Qed.

Lemma rule_keeps_of_checks j k :
  rule_wf (fromTagRE j) (B (toTag j)) = true ->
  rule_wf (fromTagRE k) (B (toTag k)) = true ->
  pair_ok (fromTagRE j) (B (toTag j)) (fromTagRE k) (B (toTag k)) = true ->
  rule_keeps j k.
Proof. intros Hj Hk Hp y. apply settled_preserved; assumption. Qed.

(** The go directive rule lets one suffix of its prefix through: the
    final [.] accepts the [g] of the replacement. The same [.] accepts
    the [g] of every match, so an attempt that failed before the match
    fails before the replacement too. *)
Lemma go_directive_rule_settles : rule_settles go_directive_rule.
Proof.
  intros x. apply ReplaceAll_settled; [reflexivity|reflexivity|].
  intros p' Hp' y rest t Hm Hnone.
  vm_compute in Hp'.
  repeat (apply elem_of_cons in Hp' as [->|Hp']);
    [apply analyse_NoMatch; reflexivity ..| |inversion Hp'].
  exfalso. revert Hm Hnone. unfold match_at, matchp.
  change (re_prefix (fromTagRE go_directive_rule))
    with [Lit "g"%byte; Lit "o"%byte; Lit " "%byte; Lit "1"%byte; AnyNotNL].
  destruct y as [|b0 y]; [discriminate|]. cbn [match_prefix].
  destruct (Byte.eqb b0 "g") eqn:H0; [|discriminate].
  apply byte_dec_bl in H0 as ->.
  destruct y as [|b1 y]; [discriminate|].
  destruct (Byte.eqb b1 "o") eqn:H1; [|discriminate].
  apply byte_dec_bl in H1 as ->. intros _.
  rewrite (rune_width_ascii "g" _ eq_refl). cbn. discriminate.
Qed.

Lemma patch_rules_ok : pipeline_ok patch_rules.
Proof.
  repeat split; repeat constructor;
    first [apply rule_settles_of_checks; reflexivity
          |apply rule_keeps_of_checks; reflexivity].
Qed.

Lemma Dockerfile_rules_ok : pipeline_ok Dockerfile_rules.
Proof.
  repeat split; repeat constructor;
    first [apply rule_settles_of_checks; reflexivity
          |apply rule_keeps_of_checks; reflexivity].
Qed.

Lemma go_mod_rules_ok : pipeline_ok go_mod_rules.
Proof.
  repeat split; repeat constructor;
    first [apply rule_settles_of_checks; reflexivity
          |apply rule_keeps_of_checks; reflexivity
          |apply go_directive_rule_settles].
Qed.

(** ** The step applied twice *)



Section ScaffoldTwice.
Context `{config_Config C}.
Variable pluginKey : string.


Lemma Scaffold_ok_inv table (w w' : World C) :
  Scaffold pluginKey table w = (w', inr tt) ->
  exists w1, replaceImages table w = (w1, inr tt) /\
    w_fs w' = w_fs w1 /\
    w_config w' = fst (EncodePluginConfig pluginKey MkConfig (w_config w1)) /\
    tolerated (snd (EncodePluginConfig pluginKey MkConfig (w_config w1))).
Proof.
  rewrite Scaffold_eq.
  destruct (replaceImages table w) as [w1 [e|[]]] eqn:Hrun; [discriminate|].
  cbv zeta. intros Hs. exists w1. split; [reflexivity|].
  destruct (snd (EncodePluginConfig pluginKey MkConfig (w_config w1))) as [e|];
    [destruct (errors_As_UnsupportedFieldError e) eqn:He|];
    try discriminate; injection Hs as <-; cbn; auto.
Qed.

End ScaffoldTwice.


(** ** Rules that do not match *)

Lemma ReplaceAll_no_match re repl b :
  has_match re b = false -> ReplaceAll re b repl = b.
Proof.
  induction b as [|x b IH]; [reflexivity|]. cbn [has_match].
  destruct (match_at re (x :: b)) eqn:Hm; [discriminate|].
  intros Hb. rewrite (ReplaceAll_skip _ _ _ _ Hm), IH by exact Hb. reflexivity.
Qed.

Lemma apply_substitutions_no_match rules b :
  Forall (fun s => has_match (fromTagRE s) b = false) rules ->
  apply_substitutions rules b = b.
Proof.
  induction rules as [|s rules IH]; intros Hall; [reflexivity|].
  inversion Hall as [|? ? Hs Hrest]; subst.
  rewrite apply_substitutions_cons. unfold subst_apply.
  rewrite (ReplaceAll_no_match _ _ _ Hs). apply IH. exact Hrest.
Qed.

(** C7. A rule whose pattern occurs nowhere in the content it is given
    returns that content as it is, and nothing fails: with every file of
    the table readable and writable the applier succeeds, whatever the
    rules match, and writes the result of the rules back with the mode
    of the file; when no rule of the file matches, what it writes is the
    content it read. *)
Theorem replaceImages_no_match_noop {C} table (w : World C) p rules f :
  table ≡ₚ imageSubstitutions ->
  (p, rules) ∈ table ->
  (forall q, q ∈ table_paths table -> entry_ready (w_fs w) q) ->
  fs_files (w_fs w) !! p = Some f ->
  (forall r1 s r2, rules = r1 ++ s :: r2 ->
     has_match (fromTagRE s) (apply_substitutions r1 (f_data f)) = false ->
     apply_substitutions (r1 ++ [s]) (f_data f) = apply_substitutions r1 (f_data f)) /\
  exists w', replaceImages table w = (w', inr tt) /\
    CallWriteFile p (apply_substitutions rules (f_data f)) (f_mode f)
      ∈ calls (replaceImages table) w /\
    (Forall (fun s => has_match (fromTagRE s) (f_data f) = false) rules ->
     apply_substitutions rules (f_data f) = f_data f /\
     fs_files (w_fs w') !! p = Some f).
Proof.
  intros Hperm Hin Hready Hf. split.
  - intros r1 s r2 _ Hno. rewrite apply_substitutions_app.
    cbn [apply_substitutions fold_left]. apply ReplaceAll_no_match. exact Hno.
  - destruct (replaceImages_succeeds table w Hready) as [w' Hrun].
    exists w'. split; [exact Hrun|].
    destruct (replaceImages_ok table w w' (table_perm_NoDup _ Hperm) Hrun _ _ Hin)
      as (f0 & Hf0 & Hf' & (evs & Hl & Hev) & _).
    rewrite Hf in Hf0. injection Hf0 as <-. split.
    + rewrite (calls_of_log _ _ evs) by (rewrite Hrun; exact Hl). exact Hev.
    + intros Hall. pose proof (apply_substitutions_no_match _ _ Hall) as Heq.
      split; [exact Heq|]. rewrite Hf', Heq. destruct f. reflexivity.
Qed.

Lemma replaceImages_no_match_noop_witness :
  apply_substitutions ([] ++ [ansible_rule]) (f_data (File sample_Dockerfile 420%N)) =
  apply_substitutions [] (f_data (File sample_Dockerfile 420%N)) /\
  exists w', replaceImages imageSubstitutions (sample_world no_fault StoreV2)
             = (w', inr tt).
Proof.
  assert (forall q, q ∈ table_paths imageSubstitutions ->
            entry_ready (w_fs (sample_world no_fault StoreV2)) q) as Hready.
  { intros q Hq. vm_compute in Hq.
    repeat (apply elem_of_cons in Hq as [->|Hq]); [ | | |inversion Hq];
      (split; [eexists; vm_compute; reflexivity|repeat split]). }
  assert (("Dockerfile", Dockerfile_rules) ∈ imageSubstitutions) as Hin.
  { rewrite imageSubstitutions_named. right. left. }
  destruct (replaceImages_no_match_noop imageSubstitutions
              (sample_world no_fault StoreV2) "Dockerfile" Dockerfile_rules
              (File sample_Dockerfile 420%N) (reflexivity _) Hin Hready)
    as [Hrule (w' & Hrun & _)].
  { vm_compute. reflexivity. }
  split.
  - refine (Hrule [] ansible_rule
              [helm_rule; distroless_rule; golang_rule; ubi_micro_rule] eq_refl _).
    vm_compute. reflexivity.
  - exists w'. exact Hrun.
Defined.

(** ** Rewriting around known text *)

Lemma match_prefix_feed p : forall s,
  match_prefix p s = match feed p s with Done w1 => Some w1 | _ => None end.
Proof.
  induction p as [|a p IH]; intros s; [reflexivity|].
  destruct s as [|b s]; [destruct a; reflexivity|]. cbn. destruct a as [c|].
  - destruct (Byte.eqb b c); [apply IH|reflexivity].
  - destruct (Byte.eqb b nl); [reflexivity|apply IH].
Qed.

Lemma skip_class_app_stop excl u d X :
  existsb (Byte.eqb d) excl = true ->
  skip_class excl (u ++ d :: X) = skip_class excl u ++ d :: X.
Proof.
  intros Hd. induction u as [|b u IH]; cbn.
  - rewrite Hd. reflexivity.
  - destruct (existsb (Byte.eqb b) excl); [reflexivity|exact IH].
Qed.

Lemma delim_safe_inv re d :
  delim_safe re d = true ->
  is_ascii d = true /\ existsb (Byte.eqb d) (re_excl re) = true /\
  forall p' a p'', re_prefix re = p' ++ a :: p'' ->
    forall X, match_prefix (a :: p'') (d :: X) = None.
Proof.
  unfold delim_safe. rewrite !andb_true_iff. intros [[Ha He] Hp].
  repeat split; try assumption. intros p' a p'' Hpre X.
  rewrite forallb_forall in Hp. specialize (Hp a).
  rewrite Hpre in Hp. specialize (Hp ltac:(apply in_or_app; right; left; reflexivity)).
  cbn. destruct a as [c|].
  - apply negb_true_iff in Hp.
    destruct (Byte.eqb d c) eqn:Hdc; [|reflexivity].
    apply byte_dec_bl in Hdc as ->. rewrite (byte_dec_lb (x:=c) eq_refl) in Hp.
    discriminate.
  - apply byte_dec_bl in Hp as ->. reflexivity.
Qed.

Lemma tails_ne_split {A} (l l' : list A) :
  l' ∈ tails_ne l -> exists q, l = q ++ l' /\ l' <> [].
Proof.
  induction l as [|x l IH]; cbn; intros Hin; [inversion Hin|].
  apply elem_of_cons in Hin as [->|Hin].
  - exists []. split; [reflexivity|discriminate].
  - destruct (IH Hin) as (q & -> & Hne). exists (x :: q). auto.
Qed.

(** A match attempt before a safe delimiter sees nothing beyond it. *)
Lemma match_at_before_delim re d s X :
  delim_safe re d = true ->
  match_at re (s ++ d :: X) = (fun r => r ++ d :: X) <$> match_at re s.
Proof.
  intros Hsafe. destruct (delim_safe_inv _ _ Hsafe) as (Ha & He & Hrej).
  unfold match_at, matchp.
  rewrite (feed_app _ s d X Ha), (match_prefix_feed _ s).
  destruct (feed (re_prefix re) s) as [|w1|p'] eqn:Hf.
  - reflexivity.
  - destruct w1 as [|b w1]; cbn.
    + rewrite He. reflexivity.
    + destruct (existsb (Byte.eqb b) (re_excl re)); [reflexivity|].
      cbn. rewrite (skip_class_app_stop _ _ _ _ He). reflexivity.
  - apply feed_More_tails in Hf. apply tails_ne_split in Hf as (q & Hq & Hne).
    destruct p' as [|a p'']; [congruence|].
    rewrite (Hrej q a p'' Hq X). reflexivity.
Qed.

Lemma match_at_nil re : match_at re [] = None.
Proof.
  unfold match_at, matchp. destruct (re_prefix re) as [|[c|] p]; reflexivity.
Qed.

(** The rule works on each side of a safe delimiter separately. *)
Lemma ReplaceAll_split re repl d : delim_safe re d = true ->
  forall pre post,
    ReplaceAll re (pre ++ d :: post) repl =
    ReplaceAll re pre repl ++ d :: ReplaceAll re post repl.
Proof.
  intros Hsafe pre post. induction pre as [pre IH] using length_ind.
  pose proof (match_at_before_delim re d pre post Hsafe) as Hm.
  destruct pre as [|b pre].
  - rewrite match_at_nil in Hm.
    change (match_at re (d :: post) = None) in Hm.
    change ([] ++ d :: post) with (d :: post).
    rewrite (ReplaceAll_skip _ repl _ _ Hm), ReplaceAll_nil. reflexivity.
  - destruct (match_at re (b :: pre)) as [rest|] eqn:Hpre.
    + change (match_at re ((b :: pre) ++ d :: post) = Some (rest ++ d :: post)) in Hm.
      rewrite (ReplaceAll_match _ repl _ _ Hm), (ReplaceAll_match _ repl _ _ Hpre).
      rewrite IH by (apply (match_at_length _ _ _ Hpre)).
      rewrite <- app_assoc. reflexivity.
    + change (match_at re (b :: (pre ++ d :: post)) = None) in Hm.
      change ((b :: pre) ++ d :: post) with (b :: (pre ++ d :: post)).
      rewrite (ReplaceAll_skip _ repl _ _ Hm), (ReplaceAll_skip _ repl _ _ Hpre).
      rewrite IH by (cbn; lia). reflexivity.
Qed.

Lemma apply_substitutions_nil rules : apply_substitutions rules [] = [].
Proof. induction rules as [|j rules IH]; [reflexivity|exact IH]. Qed.

Lemma apply_substitutions_split rules d :
  Forall (fun j => delim_safe (fromTagRE j) d = true) rules ->
  forall pre post,
    apply_substitutions rules (pre ++ d :: post) =
    apply_substitutions rules pre ++ d :: apply_substitutions rules post.
Proof.
  induction rules as [|j rules IH]; intros Hall pre post; [reflexivity|].
  inversion Hall as [|? ? Hj Hrest]; subst.
  rewrite !apply_substitutions_cons. unfold subst_apply.
  rewrite (ReplaceAll_split _ _ _ Hj). apply IH. exact Hrest.
Qed.

(** What precedes a line is rewritten on its own. *)
Lemma apply_substitutions_lines rules lines X :
  Forall (fun j => delim_safe (fromTagRE j) nl = true) rules ->
  ends_line lines ->
  apply_substitutions rules (lines ++ X) =
    apply_substitutions rules lines ++ apply_substitutions rules X /\
  ends_line (apply_substitutions rules lines).
Proof.
  intros Hall [->|[l ->]].
  - rewrite apply_substitutions_nil. split; [reflexivity|left; reflexivity].
  - rewrite <- app_assoc. cbn [app].
    rewrite !(apply_substitutions_split _ _ Hall), apply_substitutions_nil.
    rewrite <- app_assoc. split; [reflexivity|]. right. eexists. reflexivity.
Qed.

(** The rule copies known text in which its pattern does not begin. *)
Lemma ReplaceAll_skip_known re repl K t :
  forallb is_ascii K = true -> absent_in re K = true ->
  ReplaceAll re (K ++ t) repl = K ++ ReplaceAll re t repl.
Proof.
  induction K as [|x K IH]; intros Ha Hab; [reflexivity|].
  cbn [app]. rewrite ReplaceAll_skip.
  - f_equal. apply IH.
    + cbn in Ha. apply andb_true_iff in Ha as [_ Ha]. exact Ha.
    + unfold absent_in in Hab |- *. cbn in Hab.
      apply andb_true_iff in Hab as [_ Hab]. exact Hab.
  - apply (absent_in_sound re (x :: K) (x :: K) t Ha Hab). left.
Qed.

(** The rule copies text that lacks the first byte of its pattern. *)
Lemma ReplaceAll_skip_lacking re repl c0 ind t :
  first_lit (re_prefix re) = Some c0 -> lacks [c0] ind = true ->
  ReplaceAll re (ind ++ t) repl = ind ++ ReplaceAll re t repl.
Proof.
  intros Hc0. induction ind as [|x ind IH]; intros Hl; [reflexivity|].
  cbn in Hl. apply andb_true_iff in Hl as [Hx Hl].
  cbn [app]. rewrite ReplaceAll_skip; [f_equal; apply IH; exact Hl|].
  destruct (match_at re (x :: ind ++ t)) as [rest|] eqn:Hm; [|reflexivity].
  destruct (first_lit_head _ _ _ _ Hc0 Hm) as [s' [= -> _]].
  rewrite (byte_dec_lb (x:=c0) eq_refl) in Hx. discriminate.
Qed.

(** A match at the head of known text followed by a byte of the class. *)
Lemma ReplaceAll_match_known re repl K c s :
  forallb is_ascii K = true -> feed (re_prefix re) K = Done [] ->
  existsb (Byte.eqb c) (re_excl re) = false ->
  ReplaceAll re (K ++ c :: s) repl =
  repl ++ ReplaceAll re (skip_class (re_excl re) s) repl.
Proof.
  intros Ha Hf Hc. apply ReplaceAll_match. unfold match_at, matchp.
  rewrite (feed_app_ascii _ K (c :: s) Ha), Hf. cbn. rewrite Hc. reflexivity.
Qed.

(** The rule keeps the head of its input in the class. *)
Lemma ReplaceAll_head_in_class re repl c s :
  rule_wf re repl = true ->
  existsb (Byte.eqb c) (re_excl re) = false ->
  exists c' s', ReplaceAll re (c :: s) repl = c' :: s' /\
                existsb (Byte.eqb c') (re_excl re) = false.
Proof.
  intros Hwf Hc.
  destruct (rule_wf_inv _ _ Hwf) as (_ & _ & r0 & r1 & _ & Hr & _ & _ & _ & Hr0e & _).
  destruct (match_at re (c :: s)) as [rest|] eqn:Hm.
  - rewrite (ReplaceAll_match _ _ _ _ Hm), Hr. cbn. eauto.
  - rewrite (ReplaceAll_skip _ _ _ _ Hm). eauto.
Qed.

(** A match that runs from known text through bytes of the class up to
    a stop. *)
Lemma ReplaceAll_match_run re repl K c w1 t rest :
  forallb is_ascii K = true -> feed (re_prefix re) K = Done (c :: w1) ->
  existsb (Byte.eqb c) (re_excl re) = false ->
  lacks (re_excl re) (w1 ++ t) = true -> stops (re_excl re) rest ->
  ReplaceAll re (K ++ t ++ rest) repl = repl ++ ReplaceAll re rest repl.
Proof.
  intros Ha Hf Hc Hrun Hst. apply ReplaceAll_match. unfold match_at, matchp.
  rewrite (feed_app_ascii _ K (t ++ rest) Ha), Hf. cbn. rewrite Hc.
  rewrite app_assoc, skip_class_run by assumption. reflexivity.
Qed.

Lemma subst_apply_lines j lines X :
  delim_safe (fromTagRE j) nl = true -> ends_line lines ->
  subst_apply j (lines ++ X) = subst_apply j lines ++ subst_apply j X.
Proof.
  intros Hsafe Hl.
  apply (apply_substitutions_lines [j] lines X); [|exact Hl].
  repeat constructor. exact Hsafe.
Qed.

Lemma lacks_app cs s t : lacks cs (s ++ t) = lacks cs s && lacks cs t.
Proof. unfold lacks. apply forallb_app. Qed.

(** ** The language-version rule of go.mod *)

(** C9. The rule [go 1.[^2\n]+ -> go 1.20] on a go directive, that is
    on a line that begins with [go 1.]:
    - a directive whose next byte is [2] is never the start of a match,
      whatever follows, and is copied as it is; so are the lines
      [go 1.20], [go 1.21] and [go 1.28];
    - the directive [go 1.19] becomes [go 1.20], and the match is greedy:
      it takes with it whatever follows on the line up to the next [2]
      or the end of the line. *)
Theorem go_directive_rule_spec :
  (forall lines rest, ends_line lines ->
     subst_apply go_directive_rule (lines ++ B "go 1.2" ++ rest) =
     subst_apply go_directive_rule lines ++ B "go 1.2" ++
     subst_apply go_directive_rule rest) /\
  (forall lines v more, ends_line lines -> lacks (B "g") v = true ->
     subst_apply go_directive_rule (lines ++ B "go 1.2" ++ v ++ nl :: more) =
     subst_apply go_directive_rule lines ++ B "go 1.2" ++ v ++ nl ::
     subst_apply go_directive_rule more) /\
  Forall (fun line => subst_apply go_directive_rule (line ++ [nl]) = line ++ [nl])
    [B "go 1.20"; B "go 1.21"; B "go 1.28"] /\
  (forall lines t rest, ends_line lines ->
     lacks (re_excl (fromTagRE go_directive_rule)) t = true ->
     stops (re_excl (fromTagRE go_directive_rule)) rest ->
     subst_apply go_directive_rule (lines ++ B "go 1.19" ++ t ++ rest) =
     subst_apply go_directive_rule lines ++ B "go 1.20" ++
     subst_apply go_directive_rule rest).
Proof.
  assert (forall rest,
            subst_apply go_directive_rule (B "go 1.2" ++ rest) =
            B "go 1.2" ++ subst_apply go_directive_rule rest) as Hkeep.
  { intros rest. apply ReplaceAll_skip_known; reflexivity. }
  repeat split.
  - intros lines rest Hl.
    rewrite (subst_apply_lines go_directive_rule _ _ eq_refl Hl), Hkeep. reflexivity.
  - intros lines v more Hl Hv.
    rewrite (subst_apply_lines go_directive_rule _ _ eq_refl Hl), Hkeep.
    assert (subst_apply go_directive_rule (v ++ nl :: more) =
            v ++ nl :: subst_apply go_directive_rule more) as ->; [|reflexivity].
    unfold subst_apply.
    rewrite (ReplaceAll_skip_lacking (fromTagRE go_directive_rule) _ "g"%byte v _
               eq_refl Hv).
    exact (f_equal (app v)
             (ReplaceAll_split (fromTagRE go_directive_rule) _ nl eq_refl [] more)).
  - repeat constructor; vm_compute; reflexivity.
  - intros lines t rest Hl Ht Hst.
    rewrite (subst_apply_lines go_directive_rule _ _ eq_refl Hl). f_equal.
    apply (ReplaceAll_match_run _ _ (B "go 1.19") "1"%byte (B "9"));
      try reflexivity; [|exact Hst].
    rewrite lacks_app, Ht. reflexivity.
Qed.

Lemma go_directive_rule_spec_witness :
  subst_apply go_directive_rule
    ((B "module m" ++ [nl]) ++ B "go 1.19" ++ B " // was 1.19" ++
     [nl] ++ B "go 1.21.5" ++ [nl]) =
  subst_apply go_directive_rule (B "module m" ++ [nl]) ++ B "go 1.20" ++
  subst_apply go_directive_rule ([nl] ++ B "go 1.21.5" ++ [nl]).
Proof.
  destruct go_directive_rule_spec as (_ & _ & _ & Hrewrite).
  apply Hrewrite.
  - right. exists (B "module m"). reflexivity.
  - reflexivity.
  - reflexivity.
Defined.

(** ** One line through a pipeline *)

Lemma existsb_eqb_In (b : byte) cs : existsb (Byte.eqb b) cs = true <-> In b cs.
Proof.
  rewrite existsb_exists. split.
  - intros (x & Hin & Hx). apply byte_dec_bl in Hx as ->. exact Hin.
  - intros Hin. exists b. split; [exact Hin|apply byte_dec_lb; reflexivity].
Qed.

Lemma lacks_sub cs cs' s :
  forallb (fun c => existsb (Byte.eqb c) cs) cs' = true ->
  lacks cs s = true -> lacks cs' s = true.
Proof.
  intros Hsub. unfold lacks. rewrite !forallb_forall. intros Hl b Hb.
  specialize (Hl b Hb). apply negb_true_iff in Hl. apply negb_true_iff.
  destruct (existsb (Byte.eqb b) cs') eqn:He; [|reflexivity].
  apply existsb_eqb_In in He. rewrite forallb_forall in Hsub.
  apply Hsub in He. congruence.
Qed.

(** A rule leaves a stop at the head of its input where it is. *)
Lemma ReplaceAll_stop_head re repl c0 cs t :
  first_lit (re_prefix re) = Some c0 -> existsb (Byte.eqb c0) cs = false ->
  stops cs t -> stops cs (ReplaceAll re t repl).
Proof.
  intros Hc0 Hcs Ht. destruct t as [|d t]; [exact I|].
  rewrite ReplaceAll_skip; [exact Ht|].
  destruct (match_at re (d :: t)) as [rest|] eqn:Hm; [|reflexivity].
  destruct (first_lit_head _ _ _ _ Hc0 Hm) as [s' [= -> _]].
  cbn in Ht. congruence.
Qed.

Section Line.
Variables (j : substitution) (c0 : byte) (ind K : bytes).
Hypothesis Hc0 : first_lit (re_prefix (fromTagRE j)) = Some c0.
Hypothesis Hind : lacks [c0] ind = true.
Hypothesis HK : forallb is_ascii K = true.
Hypothesis Hwf : rule_wf (fromTagRE j) (B (toTag j)) = true.

(** The pattern does not begin in [ind ++ K]: the rule copies both and
  what follows still begins with a byte of the class. *)
Lemma step_keep c s :
absent_in (fromTagRE j) K = true ->
existsb (Byte.eqb c) (re_excl (fromTagRE j)) = false ->
exists c' s', subst_apply j (ind ++ K ++ c :: s) = ind ++ K ++ c' :: s' /\
              existsb (Byte.eqb c') (re_excl (fromTagRE j)) = false.
Proof.
intros Habs Hc. unfold subst_apply.
destruct (ReplaceAll_head_in_class _ _ c s Hwf Hc) as (c' & s' & Heq & Hc').
exists c', s'. split; [|exact Hc'].
rewrite (ReplaceAll_skip_lacking _ _ c0 ind _ Hc0 Hind).
rewrite (ReplaceAll_skip_known _ _ K _ HK Habs), Heq. reflexivity.
Qed.

(** The same when a stop follows. *)
Lemma step_after cs rest :
absent_in (fromTagRE j) K = true ->
existsb (Byte.eqb c0) cs = false -> stops cs rest ->
exists rest', subst_apply j (ind ++ K ++ rest) = ind ++ K ++ rest' /\
              stops cs rest'.
Proof.
intros Habs Hcs Hst. unfold subst_apply. eexists. split.
- rewrite (ReplaceAll_skip_lacking _ _ c0 ind _ Hc0 Hind).
  rewrite (ReplaceAll_skip_known _ _ K _ HK Habs). reflexivity.
- eapply ReplaceAll_stop_head; eassumption.
Qed.

(** [K] is the literal text of the pattern and a byte of the class
  follows: the rule puts its replacement in the place of [K] and of
  all that follows it up to the next stop. *)
Lemma step_hit c s :
feed (re_prefix (fromTagRE j)) K = Done [] ->
existsb (Byte.eqb c) (re_excl (fromTagRE j)) = false ->
exists rest, subst_apply j (ind ++ K ++ c :: s) = ind ++ B (toTag j) ++ rest /\
             stops (re_excl (fromTagRE j)) rest.
Proof.
intros Hf Hc. unfold subst_apply. eexists. split.
- rewrite (ReplaceAll_skip_lacking _ _ c0 ind _ Hc0 Hind).
  rewrite (ReplaceAll_match_known _ _ K c s HK Hf Hc). reflexivity.
- apply stops_ReplaceAll; [exact Hwf|apply skip_class_stops].
Qed.
End Line.

Lemma Dockerfile_rules_nl_safe :
  Forall (fun j => delim_safe (fromTagRE j) nl = true) Dockerfile_rules.
Proof. repeat constructor. Qed.

Lemma go_mod_rules_nl_safe :
  Forall (fun j => delim_safe (fromTagRE j) nl = true) go_mod_rules.
Proof. repeat constructor. Qed.

(** ** Version pins are forced, up or down *)

(** C10. In a Dockerfile, on a line where [golang:] is preceded by text
    that begins no pattern of the file (such as [FROM ]) and followed by
    any tag, the rules leave exactly [golang:1.20] followed by a blank or
    the end of the file, whatever the tag was: [1.19] is raised and
    [1.22] is lowered. In go.mod, on a line where [golang.org/x/net ] is
    preceded by text without [g] (a tab, [require ]) and followed by any
    version, they leave exactly [golang.org/x/net v0.17.0], whatever the
    version was. *)
Theorem pins_forced :
  (forall lines ind c s,
     ends_line lines -> lacks (B "qgr") ind = true ->
     existsb (Byte.eqb c) blank = false ->
     exists rest,
       apply_substitutions Dockerfile_rules (lines ++ ind ++ B "golang:" ++ c :: s) =
       apply_substitutions Dockerfile_rules lines ++ ind ++ B "golang:1.20" ++ rest /\
       stops blank rest) /\
  (forall lines ind c s,
     ends_line lines -> lacks (B "g") ind = true ->
     existsb (Byte.eqb c) blank = false ->
     exists rest,
       apply_substitutions go_mod_rules
         (lines ++ ind ++ B "golang.org/x/net " ++ c :: s) =
       apply_substitutions go_mod_rules lines ++ ind ++
         B "golang.org/x/net v0.17.0" ++ rest /\
       stops blank rest).
Proof.
  split; intros lines ind c s Hl Hind Hc.
  - destruct (apply_substitutions_lines Dockerfile_rules lines
                (ind ++ B "golang:" ++ c :: s) Dockerfile_rules_nl_safe Hl) as [-> _].
    assert (lacks (B "q") ind = true) as Hq by (eapply lacks_sub; [|exact Hind]; reflexivity).
    assert (lacks (B "g") ind = true) as Hg by (eapply lacks_sub; [|exact Hind]; reflexivity).
    assert (lacks (B "r") ind = true) as Hr by (eapply lacks_sub; [|exact Hind]; reflexivity).
    unfold Dockerfile_rules. rewrite !apply_substitutions_cons.
    destruct (step_keep ansible_rule "q"%byte ind (B "golang:")
                eq_refl Hq eq_refl eq_refl c s eq_refl Hc) as (c1 & s1 & -> & Hc1).
    destruct (step_keep helm_rule "q"%byte ind (B "golang:")
                eq_refl Hq eq_refl eq_refl c1 s1 eq_refl Hc1) as (c2 & s2 & -> & Hc2).
    destruct (step_keep distroless_rule "g"%byte ind (B "golang:")
                eq_refl Hg eq_refl eq_refl c2 s2 eq_refl Hc2) as (c3 & s3 & -> & Hc3).
    destruct (step_hit golang_rule "g"%byte ind (B "golang:")
                eq_refl Hg eq_refl eq_refl c3 s3 eq_refl Hc3) as (r4 & -> & Hr4).
    destruct (step_after ubi_micro_rule "r"%byte ind (B "golang:1.20")
                eq_refl Hr eq_refl blank r4 eq_refl eq_refl Hr4) as (r5 & Heq & Hr5).
    exists r5. split; [|exact Hr5]. f_equal. exact Heq.
  - destruct (apply_substitutions_lines go_mod_rules lines
                (ind ++ B "golang.org/x/net " ++ c :: s) go_mod_rules_nl_safe Hl) as [-> _].
    unfold go_mod_rules. rewrite !apply_substitutions_cons.
    destruct (step_hit x_net_rule "g"%byte ind (B "golang.org/x/net ")
                eq_refl Hind eq_refl eq_refl c s eq_refl Hc) as (r1 & -> & Hr1).
    destruct (step_after go_directive_rule "g"%byte ind (B "golang.org/x/net v0.17.0")
                eq_refl Hind eq_refl blank r1 eq_refl eq_refl Hr1) as (r2 & Heq & Hr2).
    exists r2. split; [|exact Hr2]. f_equal. exact Heq.
Qed.

Lemma pins_forced_witness :
  (exists rest,
     apply_substitutions Dockerfile_rules (B "FROM golang:1.22 AS builder") =
     B "FROM golang:1.20" ++ rest /\ stops blank rest) /\
  (exists rest,
     apply_substitutions go_mod_rules (B "require golang.org/x/net v0.19.0") =
     B "require golang.org/x/net v0.17.0" ++ rest /\ stops blank rest).
Proof.
  destruct pins_forced as [HD HG]. split.
  - destruct (HD [] (B "FROM ") "1"%byte (B ".22 AS builder")
                (or_introl eq_refl) eq_refl eq_refl) as (rest & Heq & Hst).
    exists rest. split; [exact Heq|exact Hst].
  - destruct (HG [] (B "require ") "v"%byte (B "0.19.0")
                (or_introl eq_refl) eq_refl eq_refl) as (rest & Heq & Hst).
    exists rest. split; [exact Heq|exact Hst].
Defined.

(** ** The concrete scenario *)

Lemma is_prefix_app s post : is_prefix s (s ++ post) = true.
Proof.
  induction s as [|a s IH]; [reflexivity|]. cbn.
  rewrite (byte_dec_lb (x:=a) eq_refl). exact IH.
Qed.

Lemma containsb_complete t s : contains t s -> containsb t s = true.
Proof.
  intros (pre & post & ->). induction pre as [|x pre IH].
  - cbn [app]. destruct (s ++ post) eqn:Heq; cbn [containsb];
      rewrite <- Heq, is_prefix_app; reflexivity.
  - cbn [app containsb]. rewrite IH. apply orb_true_r.
Qed.

Lemma Dockerfile_distroless_line b :
  at_line_start b (B "FROM gcr.io/distroless/static:nonroot") ->
  at_line_start (apply_substitutions Dockerfile_rules b)
                (B "FROM registry.access.redhat.com/ubi8/ubi-minimal:8.8").
Proof.
  intros (pre & post & -> & Hl).
  destruct (apply_substitutions_lines Dockerfile_rules pre
              (B "FROM gcr.io/distroless/static:nonroot" ++ post)
              Dockerfile_rules_nl_safe Hl) as [-> Hl'].
  change (B "FROM gcr.io/distroless/static:nonroot" ++ post)
    with (B "FROM " ++ B "gcr.io/distroless/static:" ++ "n"%byte :: B "onroot" ++ post).
  unfold Dockerfile_rules. rewrite !apply_substitutions_cons.
  destruct (step_keep ansible_rule "q"%byte (B "FROM ") (B "gcr.io/distroless/static:")
              eq_refl eq_refl eq_refl eq_refl "n"%byte (B "onroot" ++ post)
              eq_refl eq_refl) as (c1 & s1 & -> & Hc1).
  destruct (step_keep helm_rule "q"%byte (B "FROM ") (B "gcr.io/distroless/static:")
              eq_refl eq_refl eq_refl eq_refl c1 s1 eq_refl Hc1) as (c2 & s2 & -> & Hc2).
  destruct (step_hit distroless_rule "g"%byte (B "FROM ") (B "gcr.io/distroless/static:")
              eq_refl eq_refl eq_refl eq_refl c2 s2 eq_refl Hc2) as (r3 & -> & Hr3).
  destruct (step_after golang_rule "g"%byte (B "FROM ") (B (toTag distroless_rule))
              eq_refl eq_refl eq_refl blank r3 eq_refl eq_refl Hr3) as (r4 & -> & Hr4).
  destruct (step_after ubi_micro_rule "r"%byte (B "FROM ") (B (toTag distroless_rule))
              eq_refl eq_refl eq_refl blank r4 eq_refl eq_refl Hr4) as (r5 & -> & Hr5).
  exists (apply_substitutions
            [ansible_rule; helm_rule; distroless_rule; golang_rule; ubi_micro_rule] pre), r5.
  split; [|exact Hl']. cbn [apply_substitutions fold_left]. reflexivity.
Qed.

Lemma go_mod_directive_line b :
  at_line_start b (B "go 1.19") ->
  at_line_start (apply_substitutions go_mod_rules b) (B "go 1.20").
Proof.
  intros (pre & post & -> & Hl).
  destruct (apply_substitutions_lines go_mod_rules pre (B "go 1.19" ++ post)
              go_mod_rules_nl_safe Hl) as [-> Hl'].
  unfold go_mod_rules. rewrite !apply_substitutions_cons.
  assert (subst_apply x_net_rule (B "go 1.19" ++ post) =
          B "go 1.19" ++ subst_apply x_net_rule post) as ->.
  { apply ReplaceAll_skip_known; reflexivity. }
  change (B "go 1.19" ++ subst_apply x_net_rule post)
    with ([] ++ B "go 1." ++ "1"%byte :: B "9" ++ subst_apply x_net_rule post).
  destruct (step_hit go_directive_rule "g"%byte [] (B "go 1.")
              eq_refl eq_refl eq_refl eq_refl "1"%byte
              (B "9" ++ subst_apply x_net_rule post) eq_refl eq_refl)
    as (r2 & -> & Hr2).
  exists (apply_substitutions [x_net_rule; go_directive_rule] pre), r2.
  split; [reflexivity|exact Hl'].
Qed.

Section Scenario.
Context `{config_Config C}.
Variable pluginKey : string.

(** C1, as amended. If the Dockerfile has a line that begins with
  [FROM gcr.io/distroless/static:nonroot] and go.mod has a line that
  begins with [go 1.19], then after a successful run of the step the
  Dockerfile has a line that begins with
  [FROM registry.access.redhat.com/ubi8/ubi-minimal:8.8] and go.mod has
  a line that begins with [go 1.20]. *)
Theorem Scaffold_concrete_scenario table (w w' : World C) fd fg :
table ≡ₚ imageSubstitutions ->
Scaffold pluginKey table w = (w', inr tt) ->
fs_files (w_fs w) !! "Dockerfile" = Some fd ->
at_line_start (f_data fd) (B "FROM gcr.io/distroless/static:nonroot") ->
fs_files (w_fs w) !! "go.mod" = Some fg ->
at_line_start (f_data fg) (B "go 1.19") ->
exists fd' fg',
  fs_files (w_fs w') !! "Dockerfile" = Some fd' /\
  at_line_start (f_data fd')
    (B "FROM registry.access.redhat.com/ubi8/ubi-minimal:8.8") /\
  fs_files (w_fs w') !! "go.mod" = Some fg' /\
  at_line_start (f_data fg') (B "go 1.20").
Proof.
intros Hperm Hrun Hfd Hd Hfg Hg.
destruct (Scaffold_ok_inv _ _ _ _ Hrun) as (w1 & Hr1 & Hfs & _).
pose proof (replaceImages_ok table w w1 (table_perm_NoDup _ Hperm) Hr1) as Hok.
assert (("Dockerfile", Dockerfile_rules) ∈ table) as HinD.
{ rewrite Hperm, imageSubstitutions_named. right. left. }
assert (("go.mod", go_mod_rules) ∈ table) as HinG.
{ rewrite Hperm, imageSubstitutions_named. right. right. left. }
destruct (Hok _ _ HinD) as (fd0 & Hfd0 & Hfd' & _).
destruct (Hok _ _ HinG) as (fg0 & Hfg0 & Hfg' & _).
rewrite Hfd in Hfd0. injection Hfd0 as <-.
rewrite Hfg in Hfg0. injection Hfg0 as <-.
rewrite Hfs. eexists _, _. split; [exact Hfd'|]. split.
{ apply Dockerfile_distroless_line. exact Hd. }
split; [exact Hfg'|]. apply go_mod_directive_line. exact Hg.
Qed.
End Scenario.

Lemma Scaffold_concrete_scenario_witness :
  exists w' fd' fg',
    Scaffold sample_key imageSubstitutions (sample_world no_fault StoreV2)
      = (w', inr tt) /\
    fs_files (w_fs w') !! "Dockerfile" = Some fd' /\
    at_line_start (f_data fd')
      (B "FROM registry.access.redhat.com/ubi8/ubi-minimal:8.8") /\
    fs_files (w_fs w') !! "go.mod" = Some fg' /\
    at_line_start (f_data fg') (B "go 1.20").
Proof.
  destruct (Scaffold sample_key imageSubstitutions (sample_world no_fault StoreV2))
    as [w' r] eqn:Hrun.
  assert (r = inr tt) as ->
    by (apply (f_equal snd) in Hrun; vm_compute in Hrun; congruence).
  destruct (Scaffold_concrete_scenario sample_key imageSubstitutions _ w'
              (File sample_Dockerfile 420%N) (File sample_go_mod 384%N)
              (reflexivity _) Hrun)
    as (fd' & fg' & H1 & H2 & H3 & H4).
  - vm_compute. reflexivity.
  - exists (B "# Build the manager binary" ++ [nl] ++
            B "FROM golang:1.19 as builder" ++ [nl] ++ B "WORKDIR /workspace" ++ [nl]),
           ([nl] ++ B "WORKDIR /" ++ [nl]).
    split; [vm_compute; reflexivity|]. right.
    exists (B "# Build the manager binary" ++ [nl] ++
            B "FROM golang:1.19 as builder" ++ [nl] ++ B "WORKDIR /workspace").
    vm_compute. reflexivity.
  - vm_compute. reflexivity.
  - exists (B "module example.com/memcached" ++ [nl; nl]),
           ([nl; nl] ++ B "require golang.org/x/net v0.10.0 // indirect" ++ [nl]).
    split; [vm_compute; reflexivity|]. right.
    exists (B "module example.com/memcached" ++ [nl]). vm_compute. reflexivity.
  - exists w', fd', fg'. auto.
Defined.

(** C1 as the claim has it, with "contains" for any occurrence, fails:
    the step succeeds on [tricky_world], whose Dockerfile contains
    [FROM gcr.io/distroless/static:nonroot] and whose go.mod contains
    [go 1.19], and afterwards the Dockerfile does not contain
    [FROM registry.access.redhat.com/ubi8/ubi-minimal:8.8] and go.mod
    does not contain [go 1.20]. *)
Lemma Scaffold_concrete_scenario_counterexample :
  exists w' fd fg fd' fg',
    Scaffold sample_key imageSubstitutions tricky_world = (w', inr tt) /\
    fs_files (w_fs tricky_world) !! "Dockerfile" = Some fd /\
    contains (f_data fd) (B "FROM gcr.io/distroless/static:nonroot") /\
    fs_files (w_fs tricky_world) !! "go.mod" = Some fg /\
    contains (f_data fg) (B "go 1.19") /\
    fs_files (w_fs w') !! "Dockerfile" = Some fd' /\
    ~ contains (f_data fd')
        (B "FROM registry.access.redhat.com/ubi8/ubi-minimal:8.8") /\
    fs_files (w_fs w') !! "go.mod" = Some fg' /\
    ~ contains (f_data fg') (B "go 1.20").
Proof.
  destruct (Scaffold sample_key imageSubstitutions tricky_world) as [w' r] eqn:Hrun.
  assert (r = inr tt) as Hr
    by (apply (f_equal snd) in Hrun; vm_compute in Hrun; congruence).
  assert (fs_files (w_fs w') !! "Dockerfile" =
          Some (File (B "golang:1.20 registry.access.redhat.com/ubi8/ubi-minimal:8.8")
                     420%N)) as HD.
  { apply (f_equal (fun x => fs_files (w_fs (fst x)) !! "Dockerfile")) in Hrun.
    cbn [fst] in Hrun. rewrite <- Hrun. vm_compute. reflexivity. }
  assert (fs_files (w_fs w') !! "go.mod" =
          Some (File (B "golang.org/x/net v0.17.0 1.19") 420%N)) as HG.
  { apply (f_equal (fun x => fs_files (w_fs (fst x)) !! "go.mod")) in Hrun.
    cbn [fst] in Hrun. rewrite <- Hrun. vm_compute. reflexivity. }
  subst r. eexists w', _, _, _, _.
  split; [reflexivity|]. split; [vm_compute; reflexivity|]. split.
  { exists (B "golang:"), []. vm_compute. reflexivity. }
  split; [vm_compute; reflexivity|]. split.
  { exists (B "golang.org/x/net "), []. vm_compute. reflexivity. }
  split; [exact HD|]. split.
  { intros Hc. apply containsb_complete in Hc. vm_compute in Hc. discriminate. }
  split; [exact HG|].
  intros Hc. apply containsb_complete in Hc. vm_compute in Hc. discriminate.
Qed.

(** * Further properties of the table and of the applier *)

(** ** Lines *)

(** X1. No match spans a newline: for every file of the table, the
    rules rewrite what is before a newline and what is after it
    separately, and keep the newline. *)
Theorem table_rules_linewise :
  Forall (fun entry : string * list substitution =>
            forall pre post,
              apply_substitutions (snd entry) (pre ++ nl :: post) =
              apply_substitutions (snd entry) pre ++ nl ::
              apply_substitutions (snd entry) post)
         imageSubstitutions.
Proof.
  rewrite imageSubstitutions_named.
  repeat constructor; intros pre post; cbn [snd];
    apply apply_substitutions_split; repeat constructor.
Qed.

(** X2. A line on which no pattern of the file matches is copied as
    it is, whatever the lines around it are and whatever is rewritten in
    them. *)
Theorem table_rules_keep_unmatched_line p rules pre line post :
  (p, rules) ∈ imageSubstitutions ->
  Forall (fun j => has_match (fromTagRE j) line = false) rules ->
  apply_substitutions rules (pre ++ nl :: line ++ nl :: post) =
  apply_substitutions rules pre ++ nl :: line ++ nl ::
  apply_substitutions rules post.
Proof.
  intros Hin Hno.
  assert (Forall (fun j => delim_safe (fromTagRE j) nl = true) rules) as Hsafe.
  { rewrite imageSubstitutions_named in Hin.
    repeat (apply elem_of_cons in Hin as [[= -> ->]|Hin]);
      [repeat constructor ..|inversion Hin]. }
  rewrite !(apply_substitutions_split _ _ Hsafe).
  rewrite (apply_substitutions_no_match _ _ Hno). reflexivity.
Qed.

Lemma table_rules_keep_unmatched_line_witness :
  apply_substitutions Dockerfile_rules
    (B "FROM golang:1.19 as builder" ++ nl :: B "WORKDIR /workspace" ++ nl ::
     B "FROM gcr.io/distroless/static:nonroot") =
  apply_substitutions Dockerfile_rules (B "FROM golang:1.19 as builder") ++ nl ::
  B "WORKDIR /workspace" ++ nl ::
  apply_substitutions Dockerfile_rules (B "FROM gcr.io/distroless/static:nonroot").
Proof.
  apply (table_rules_keep_unmatched_line "Dockerfile").
  - rewrite imageSubstitutions_named. right. left.
  - repeat constructor.
Defined.

(** ** What is left of the patterns after the rules *)

Lemma settled_head re repl s : settled re repl s -> head_ok re repl s.
Proof. destruct s; cbn; tauto. Qed.

Lemma settled_no_match re repl s :
  rule_wf re repl = true -> never_rematches re repl = true ->
  settled re repl s -> has_match re s = false.
Proof.
  intros Hwf Hnever.
  destruct (rule_wf_inv _ _ Hwf) as (_ & _ & _ & _ & _ & _ & _ & _ & _ & _ & Hra & _).
  induction s as [|x s IH]; [reflexivity|]. intros [Hh Hs]. cbn [has_match].
  destruct (match_at re (x :: s)) as [rest|] eqn:Hm; [|apply IH; exact Hs].
  exfalso. pose proof (Hh _ Hm) as Heq.
  pose proof (matchp_stops _ _ _ _ Hm) as Hst.
  rewrite Heq in Hm. unfold match_at in Hm. unfold never_rematches in Hnever.
  destruct (analyse (re_prefix re) (re_excl re) repl) eqn:Han; try discriminate.
  - rewrite (analyse_NoMatch _ _ _ rest Hra Han) in Hm. discriminate.
  - rewrite (analyse_NoMatchAtStop _ _ _ rest Hra Hst Han) in Hm. discriminate.
Qed.

Lemma pipeline_output_settled rules j b :
  pipeline_ok rules -> j ∈ rules ->
  settled (fromTagRE j) (B (toTag j)) (apply_substitutions rules b).
Proof.
  intros Hok Hin. pose proof (pipeline_settled rules b Hok) as Hall.
  rewrite Forall_forall in Hall. exact (Hall j Hin).
Qed.

(** X3. After the rules of a file have run, the upstream references
    are gone: the patterns of kube-rbac-proxy (patch file), of
    ansible-operator, helm-operator and distroless (Dockerfile) and of the
    go directive (go.mod) match nowhere in the content, whatever the
    content was. *)
Theorem upstream_references_gone b :
  has_match (fromTagRE kube_rbac_proxy_rule) (apply_substitutions patch_rules b) = false /\
  has_match (fromTagRE ansible_rule) (apply_substitutions Dockerfile_rules b) = false /\
  has_match (fromTagRE helm_rule) (apply_substitutions Dockerfile_rules b) = false /\
  has_match (fromTagRE distroless_rule) (apply_substitutions Dockerfile_rules b) = false /\
  has_match (fromTagRE go_directive_rule) (apply_substitutions go_mod_rules b) = false.
Proof.
  assert (forall rules j, pipeline_ok rules -> j ∈ rules ->
            rule_wf (fromTagRE j) (B (toTag j)) = true ->
            never_rematches (fromTagRE j) (B (toTag j)) = true ->
            has_match (fromTagRE j) (apply_substitutions rules b) = false) as Hgen.
  { intros rules j Hok Hin Hwf Hnever. apply (settled_no_match _ _ _ Hwf Hnever).
    apply pipeline_output_settled; assumption. }
  repeat split.
  - apply (Hgen _ _ patch_rules_ok); [left|reflexivity|reflexivity].
  - apply (Hgen _ _ Dockerfile_rules_ok); [left|reflexivity|reflexivity].
  - apply (Hgen _ _ Dockerfile_rules_ok); [right; left|reflexivity|reflexivity].
  - apply (Hgen _ _ Dockerfile_rules_ok); [do 2 right; left|reflexivity|reflexivity].
  - apply (Hgen _ _ go_mod_rules_ok); [right; left|reflexivity|reflexivity].
Qed.

(** X4. After the rules of a file have run, every occurrence of a
    pattern whose replacement is a pin of the same image or module is
    that pin, followed by a blank or by the end of the content: every
    [golang:<tag>] is [golang:1.20], every ubi-micro reference has tag
    [8.8] and every [golang.org/x/net <version>] has [v0.17.0]. *)
Theorem pins_uniform b pre s rest :
  (apply_substitutions Dockerfile_rules b = pre ++ s ->
   match_at (fromTagRE golang_rule) s = Some rest ->
   s = B "golang:1.20" ++ rest /\ stops blank rest) /\
  (apply_substitutions Dockerfile_rules b = pre ++ s ->
   match_at (fromTagRE ubi_micro_rule) s = Some rest ->
   s = B "registry.access.redhat.com/ubi8/ubi-micro:8.8" ++ rest /\ stops blank rest) /\
  (apply_substitutions go_mod_rules b = pre ++ s ->
   match_at (fromTagRE x_net_rule) s = Some rest ->
   s = B "golang.org/x/net v0.17.0" ++ rest /\ stops blank rest).
Proof.
  assert (forall rules j, pipeline_ok rules -> j ∈ rules ->
            apply_substitutions rules b = pre ++ s ->
            match_at (fromTagRE j) s = Some rest ->
            s = B (toTag j) ++ rest /\ stops (re_excl (fromTagRE j)) rest) as Hgen.
  { intros rules j Hok Hin Heq Hm.
    pose proof (pipeline_output_settled rules j b Hok Hin) as Hs.
    rewrite Heq in Hs. apply settled_drop_app, settled_head in Hs.
    split; [exact (Hs _ Hm)|exact (matchp_stops _ _ _ _ Hm)]. }
  repeat split;
    first [ eapply (Hgen Dockerfile_rules golang_rule Dockerfile_rules_ok); eauto;
            do 3 right; left
          | eapply (Hgen Dockerfile_rules ubi_micro_rule Dockerfile_rules_ok); eauto;
            do 4 right; left
          | eapply (Hgen go_mod_rules x_net_rule go_mod_rules_ok); eauto; left ].
Qed.

Lemma pins_uniform_witness :
  B "golang:1.20 as builder" = B "golang:1.20" ++ B " as builder" /\
  stops blank (B " as builder").
Proof.
  destruct (pins_uniform (B "FROM golang:1.19 as builder") (B "FROM ")
              (B "golang:1.20 as builder") (B " as builder")) as (HG & _ & _).
  apply HG; vm_compute; reflexivity.
Defined.

(** ** The dots of the patterns *)




(** ** The applier and the order of the table *)


Lemma Fs_eq (a b : Fs) :
  fs_files a = fs_files b -> fs_fault a = fs_fault b -> a = b.
Proof. destruct a, b; cbn; intros -> ->; reflexivity. Qed.

(** X6. Go ranges over the table in an order of its choosing; the
    order does not matter to the outcome. If the applier succeeds when it
    visits the table in one order, it succeeds in every other order and
    leaves the same filesystem. *)
Theorem replaceImages_order_independent {C} table1 table2 (w w1 : World C) :
  table1 ≡ₚ imageSubstitutions -> table2 ≡ₚ imageSubstitutions ->
  replaceImages table1 w = (w1, inr tt) ->
  exists w2, replaceImages table2 w = (w2, inr tt) /\ w_fs w2 = w_fs w1.
Proof.
  intros Hp1 Hp2 Hrun1.
  destruct (replaceImages_succeeds table2 w) as [w2 Hrun2].
  { intros p Hp. apply (replaceImages_ok_ready _ _ _ Hrun1).
    unfold table_paths in *. rewrite Hp1. rewrite Hp2 in Hp. exact Hp. }
  exists w2. split; [exact Hrun2|].
  pose proof (replaceImages_frame _ _ _ _ Hrun1) as F1.
  pose proof (replaceImages_frame _ _ _ _ Hrun2) as F2.
  apply Fs_eq; [|rewrite (frame_fault _ _ _ F1), (frame_fault _ _ _ F2); reflexivity].
  apply map_eq. intros p.
  destruct (decide (p ∈ table_paths table2)) as [Hin|Hnin].
  - apply list_elem_of_fmap in Hin as ([p' rules] & -> & Hin). cbn [fst].
    destruct (replaceImages_ok table2 w w2 (table_perm_NoDup _ Hp2) Hrun2 _ _ Hin)
      as (f2 & Hf2 & Hf2' & _).
    assert ((p', rules) ∈ table1) as Hin1 by (rewrite Hp1, <- Hp2; exact Hin).
    destruct (replaceImages_ok table1 w w1 (table_perm_NoDup _ Hp1) Hrun1 _ _ Hin1)
      as (f1 & Hf1 & Hf1' & _).
    rewrite Hf2 in Hf1. injection Hf1 as <-. rewrite Hf2', Hf1'. reflexivity.
  - rewrite (frame_files _ _ _ F2 p Hnin). symmetry.
    apply (frame_files _ _ _ F1).
    unfold table_paths in *. rewrite Hp1. rewrite Hp2 in Hnin. exact Hnin.
Qed.

Lemma replaceImages_order_independent_witness :
  exists w1 w2,
    replaceImages imageSubstitutions (sample_world no_fault StoreV2) = (w1, inr tt) /\
    replaceImages (reverse imageSubstitutions) (sample_world no_fault StoreV2)
      = (w2, inr tt) /\
    w_fs w2 = w_fs w1.
Proof.
  destruct (replaceImages imageSubstitutions (sample_world no_fault StoreV2))
    as [w1 r] eqn:Hrun.
  assert (r = inr tt) as ->
    by (apply (f_equal snd) in Hrun; vm_compute in Hrun; congruence).
  destruct (replaceImages_order_independent imageSubstitutions
              (reverse imageSubstitutions) _ w1 (reflexivity _)
              (reverse_Permutation _) Hrun) as (w2 & Hrun2 & Hfs).
  exists w1, w2. auto.
Defined.



(** ** What a failure is, and what it leaves behind *)

(** X8. Whenever the applier fails, a file of the table is the cause,
    in one of four ways: a read that the filesystem refused, a file that
    is not there (reported as the read failure [open <path>: file does not
    exist]), a stat that the filesystem refused, or a write that it
    refused. The first three come back under a message that says which
    step of the substitution failed; the fourth comes back as the
    filesystem gave it. *)
Theorem replaceImages_failure_causes {C} table : forall (w w' : World C) e,
  replaceImages table w = (w', inl e) ->
  exists p, p ∈ table_paths table /\
    ((exists e0, fs_fault (w_fs w) OpRead p = Some e0 /\ e = read_ctx e0) \/
     (fs_fault (w_fs w) OpRead p = None /\ fs_files (w_fs w) !! p = None /\
      e = read_ctx (PathError "open" p ErrFileNotFound)) \/
     (exists e0, fs_fault (w_fs w) OpStat p = Some e0 /\ e = stat_ctx e0) \/
     fs_fault (w_fs w) OpWrite p = Some e).
Proof.
  induction table as [|[p0 rules0] table IH]; intros w w' e; cbn [replaceImages].
  { discriminate. }
  unfold bind. destruct (replaceImages_entry p0 rules0 w) as [w1 [e1|[]]] eqn:He.
  - intros [= <- <-]. exists p0. split; [left|].
    rewrite replaceImages_entry_eq in He.
    unfold fs_ReadFile, fs_Stat, fs_WriteFile in He.
    destruct (fs_fault (w_fs w) OpRead p0) as [e0|] eqn:Hr.
    { injection He as _ <-. left. eauto. }
    destruct (fs_files (w_fs w) !! p0) as [f|] eqn:Hf.
    2:{ injection He as _ <-. right. left. auto. }
    destruct (fs_fault (w_fs w) OpStat p0) as [e0|] eqn:Hs.
    { injection He as _ <-. right. right. left. eauto. }
    cbv zeta in He.
    destruct (fs_fault (w_fs w) OpWrite p0) as [e0|] eqn:Hw; [|discriminate].
    injection He as _ <-. right. right. right. reflexivity.
  - intros Hrest. apply IH in Hrest as (p & Hp & Hcause).
    pose proof (replaceImages_entry_frame _ _ _ _ _ He) as F.
    exists p. split; [right; exact Hp|].
    rewrite (frame_fault _ _ _ F) in Hcause.
    destruct Hcause as [H1|[(H1 & H2 & H3)|H34]]; [auto| |auto].
    right. left. split; [exact H1|]. split; [|exact H3].
    pose proof (frame_mode _ _ _ F p) as Hm. rewrite H2 in Hm.
    destruct (fs_files (w_fs w) !! p); [discriminate|reflexivity].
Qed.

Lemma replaceImages_failure_causes_witness :
  exists p, p ∈ table_paths imageSubstitutions /\
    fs_fault (w_fs (sample_world read_only StoreV2)) OpWrite p
      = Some (Errno "operation not permitted").
Proof.
  destruct (replaceImages imageSubstitutions (sample_world read_only StoreV2))
    as [w' r] eqn:Hrun.
  assert (r = inl (Errno "operation not permitted")) as ->
    by (apply (f_equal snd) in Hrun; vm_compute in Hrun; congruence).
  destruct (replaceImages_failure_causes _ _ _ _ Hrun) as (p & Hp & Hcause).
  exists p. split; [exact Hp|].
  destruct Hcause as [(e0 & H1 & _)|[(_ & _ & H3)|[(e0 & H1 & _)|H4]]];
    [discriminate H1|discriminate H3|discriminate H1|exact H4].
Defined.

Section StepFailures.
Context `{config_Config C}.
Variable pluginKey : string.

(** X9. The step creates no file and removes none, and changes no
    mode, whether it succeeds or fails and in whatever order it visits the
    table: a file is only ever written after it has been read. *)
Theorem Scaffold_keeps_files table (w : World C) :
  dom (fs_files (w_fs (fst (Scaffold pluginKey table w)))) = dom (fs_files (w_fs w)) /\
  forall q, f_mode <$> (fs_files (w_fs (fst (Scaffold pluginKey table w))) !! q) =
            f_mode <$> (fs_files (w_fs w) !! q).
Proof.
  assert (forall q, f_mode <$> (fs_files (w_fs (fst (Scaffold pluginKey table w))) !! q) =
                    f_mode <$> (fs_files (w_fs w) !! q)) as Hmode.
  { intros q. rewrite Scaffold_eq.
    destruct (replaceImages table w) as [w1 [e|[]]] eqn:Hrun;
      pose proof (frame_mode _ _ _ (replaceImages_frame _ _ _ _ Hrun) q) as Hm;
      [exact Hm|]. cbv zeta.
    destruct (snd (EncodePluginConfig pluginKey MkConfig (w_config w1))) as [e|];
      [destruct (errors_As_UnsupportedFieldError e)|]; exact Hm. }
  split; [|exact Hmode].
  apply set_eq. intros q. rewrite !elem_of_dom.
  rewrite <- !(fmap_is_Some f_mode), Hmode. reflexivity.
Qed.

(** X10. A failure to record the marker comes after the substitution
    and undoes nothing: when the applier has succeeded and the store
    returns an error other than the unsupported-field error, the step
    fails with the message built around the plugin key and the error of
    the store, and the filesystem is the one the applier left, every file
    of the table rewritten. *)
Theorem Scaffold_marker_failure_keeps_files table (w w1 : World C) e :
  table ≡ₚ imageSubstitutions ->
  replaceImages table w = (w1, inr tt) ->
  snd (EncodePluginConfig pluginKey MkConfig (w_config w)) = Some e ->
  errors_As_UnsupportedFieldError e = false ->
  snd (Scaffold pluginKey table w) = inl (marker_error pluginKey e) /\
  w_fs (fst (Scaffold pluginKey table w)) = w_fs w1 /\
  forall p rules, (p, rules) ∈ table ->
    exists f, fs_files (w_fs w) !! p = Some f /\
      fs_files (w_fs (fst (Scaffold pluginKey table w))) !! p =
        Some (File (apply_substitutions rules (f_data f)) (f_mode f)).
Proof.
  intros Hperm Hrun Henc Has.
  pose proof (frame_config _ _ _ (replaceImages_frame _ _ _ _ Hrun)) as Hcfg.
  assert (Scaffold pluginKey table w =
          (MkWorld (w_fs w1) (fst (EncodePluginConfig pluginKey MkConfig (w_config w)))
             (w_log w1 ++ [CallEncodePluginConfig pluginKey (Some e)]),
           inl (marker_error pluginKey e))) as ->.
  { rewrite Scaffold_eq, Hrun, Hcfg. cbv zeta. rewrite Henc, Has. reflexivity. }
  cbn [fst snd w_fs]. split; [reflexivity|]. split; [reflexivity|].
  intros p rules Hin.
  destruct (replaceImages_ok table w w1 (table_perm_NoDup _ Hperm) Hrun _ _ Hin)
    as (f & Hf & Hf' & _).
  exists f. split; [exact Hf|exact Hf'].
Qed.
End StepFailures.

Lemma Scaffold_marker_failure_keeps_files_witness :
  snd (Scaffold sample_key imageSubstitutions (sample_world no_fault StoreBroken)) =
    inl (marker_error sample_key (Errno "input/output error")) /\
  fs_files (w_fs (fst (Scaffold sample_key imageSubstitutions
                         (sample_world no_fault StoreBroken)))) !! "go.mod" =
    Some (File (apply_substitutions go_mod_rules sample_go_mod) 384%N).
Proof.
  destruct (replaceImages imageSubstitutions (sample_world no_fault StoreBroken))
    as [w1 r] eqn:Hrun.
  assert (r = inr tt) as ->
    by (apply (f_equal snd) in Hrun; vm_compute in Hrun; congruence).
  assert (snd (EncodePluginConfig sample_key MkConfig
                 (w_config (sample_world no_fault StoreBroken))) =
          Some (Errno "input/output error")) as Henc by reflexivity.
  destruct (Scaffold_marker_failure_keeps_files sample_key imageSubstitutions _ w1
              (Errno "input/output error") (reflexivity _) Hrun Henc eq_refl)
    as (Hres & _ & Hfiles).
  split; [exact Hres|].
  destruct (Hfiles "go.mod" go_mod_rules ltac:(do 2 right; left)) as (f & Hf & Hf').
  vm_compute in Hf. injection Hf as <-. exact Hf'.
Defined.

(** ** The calls of the applier *)

Lemma flat_map_entry_calls_insert files p f table :
  p ∉ table_paths table ->
  flat_map (entry_calls (<[p := f]> files)) table =
  flat_map (entry_calls files) table.
Proof.
  induction table as [|[q rs] table IH]; intros Hp; [reflexivity|].
  cbn [flat_map]. rewrite IH.
  - f_equal. unfold entry_calls. cbn [fst snd].
    rewrite lookup_insert_ne; [reflexivity|].
    intros ->. apply Hp. left.
  - intros Hin. apply Hp. right. exact Hin.
Qed.

(** X11. A successful run of the applier makes, for each entry in the
    order in which it visits the table, a read of the file, a stat of it
    and one write of the rewritten content with the mode the stat found,
    and no other call: every file of the table is read once and written
    once, and never written before it has been read. *)
Theorem replaceImages_calls_in_order {C} table : forall (w w' : World C),
  NoDup (table_paths table) ->
  replaceImages table w = (w', inr tt) ->
  calls (replaceImages table) w =
  flat_map (entry_calls (fs_files (w_fs w))) table.
Proof.
  assert (forall (w w' : World C),
            NoDup (table_paths table) ->
            replaceImages table w = (w', inr tt) ->
            w_log w' = w_log w ++ flat_map (entry_calls (fs_files (w_fs w))) table)
    as Hlog.
  { induction table as [|[p0 rules0] table IH]; intros w w' Hnd Hrun.
    - injection Hrun as <-. cbn. rewrite app_nil_r. reflexivity.
    - cbn [replaceImages] in Hrun. unfold bind in Hrun.
      destruct (replaceImages_entry p0 rules0 w) as [w1 [e|[]]] eqn:He;
        [discriminate|].
      cbn [table_paths fmap list_fmap fst] in Hnd.
      apply NoDup_cons in Hnd as [Hnotin Hnd].
      apply replaceImages_entry_ok in He
        as (f & Hf & Hfiles & _ & _ & Hl & _).
      rewrite (IH w1 w' Hnd Hrun), Hl, Hfiles.
      rewrite (flat_map_entry_calls_insert _ _ _ _ Hnotin).
      cbn [flat_map].
      assert (entry_calls (fs_files (w_fs w)) (p0, rules0) =
              [CallReadFile p0; CallStat p0;
               CallWriteFile p0 (apply_substitutions rules0 (f_data f)) (f_mode f)])
        as -> by (unfold entry_calls; cbn [fst snd]; rewrite Hf; reflexivity).
      rewrite <- !app_assoc. reflexivity. }
  intros w w' Hnd Hrun. apply calls_of_log. rewrite Hrun. cbn [fst].
  apply Hlog; assumption.
Qed.

Lemma replaceImages_calls_in_order_witness :
  calls (replaceImages imageSubstitutions) (sample_world no_fault StoreV2) =
  flat_map (entry_calls (fs_files (w_fs (sample_world no_fault StoreV2))))
           imageSubstitutions.
Proof.
  destruct (replaceImages imageSubstitutions (sample_world no_fault StoreV2))
    as [w' r] eqn:Hrun.
  assert (r = inr tt) as ->
    by (apply (f_equal snd) in Hrun; vm_compute in Hrun; congruence).
  exact (replaceImages_calls_in_order imageSubstitutions _ w'
           table_paths_NoDup Hrun).
Defined.

(** ** The number of lines *)

Lemma count_nl_app a b : count_nl (a ++ b) = count_nl a + count_nl b.
Proof. unfold count_nl. rewrite filter_app, length_app. reflexivity. Qed.

Lemma count_nl_zero_split m :
  count_nl m <> 0 -> exists m1 m2, m = m1 ++ nl :: m2.
Proof.
  induction m as [|x m IH]; [intros Hc; exfalso; apply Hc; reflexivity|].
  destruct (Byte.eqb x nl) eqn:Hx.
  - apply byte_dec_bl in Hx as ->. intros _. exists [], m. reflexivity.
  - intros Hc. destruct IH as (m1 & m2 & ->).
    + intros Hz. apply Hc. unfold count_nl in *. rewrite filter_cons_False; [exact Hz|].
      rewrite Hx. discriminate.
    + exists (x :: m1), m2. reflexivity.
Qed.

(** A match holds no newline. *)
Lemma match_at_no_newline re m rest :
  delim_safe re nl = true -> match_at re (m ++ rest) = Some rest -> count_nl m = 0.
Proof.
  intros Hsafe Hm. destruct (Nat.eq_dec (count_nl m) 0) as [Hz|Hnz]; [exact Hz|].
  exfalso. destruct (count_nl_zero_split m Hnz) as (m1 & m2 & ->).
  rewrite <- app_assoc in Hm. cbn [app] in Hm.
  rewrite (match_at_before_delim re nl m1 (m2 ++ rest) Hsafe) in Hm.
  destruct (match_at re m1) as [r|]; [|discriminate]. cbn in Hm.
  injection Hm as Hm. apply (f_equal length) in Hm.
  rewrite !length_app in Hm. cbn [length] in Hm. rewrite length_app in Hm. lia.
Qed.

Lemma ReplaceAll_count_nl re repl :
  delim_safe re nl = true -> count_nl repl = 0 ->
  forall src, count_nl (ReplaceAll re src repl) = count_nl src.
Proof.
  intros Hsafe Hrepl src.
  induction src as [|b src Hm IH|src rest Hm IH] using (scan_ind re).
  - reflexivity.
  - rewrite (ReplaceAll_skip _ _ _ _ Hm).
    change (b :: ReplaceAll re src repl) with ([b] ++ ReplaceAll re src repl).
    change (b :: src) with ([b] ++ src).
    rewrite !count_nl_app, IH. reflexivity.
  - rewrite (ReplaceAll_match _ _ _ _ Hm), count_nl_app, Hrepl, IH.
    destruct (matchp_suffix _ _ _ _ Hm) as [m ->].
    rewrite count_nl_app, (match_at_no_newline re m rest Hsafe Hm). reflexivity.
Qed.

(** X12. The rules keep the number of lines: for every file of the
    table, the rewritten content has as many newlines as the content had.
    No replacement holds a newline and no match takes one with it. *)
Theorem table_rules_keep_line_count :
  Forall (fun entry : string * list substitution =>
            forall b, count_nl (apply_substitutions (snd entry) b) = count_nl b)
         imageSubstitutions.
Proof.
  assert (forall rules,
            Forall (fun j => delim_safe (fromTagRE j) nl = true /\
                             count_nl (B (toTag j)) = 0) rules ->
            forall b, count_nl (apply_substitutions rules b) = count_nl b) as Hgen.
  { induction rules as [|j rules IH]; intros Hall b; [reflexivity|].
    inversion Hall as [|? ? [Hsafe Hrepl] Hrest]; subst.
    rewrite apply_substitutions_cons, (IH Hrest). unfold subst_apply.
    apply ReplaceAll_count_nl; assumption. }
  rewrite imageSubstitutions_named.
  repeat constructor; cbn [snd]; apply Hgen; repeat constructor.
Qed.

(** ** When the step succeeds *)

Section StepSuccess.
Context `{config_Config C}.
Variable pluginKey : string.

(** X13. The step succeeds exactly when every file of the table is
    there and can be read, stat-ed and written, and the store accepts the
    marker or reports the plugins field as unsupported. Success does not
    depend on what the files contain, nor on the order of the table. *)
Theorem Scaffold_succeeds_iff table (w : World C) :
  table ≡ₚ imageSubstitutions ->
  snd (Scaffold pluginKey table w) = inr tt <->
  (forall p, p ∈ table_paths imageSubstitutions -> entry_ready (w_fs w) p) /\
  tolerated (snd (EncodePluginConfig pluginKey MkConfig (w_config w))).
Proof.
  intros Hperm. split.
  - intros Hs. destruct (Scaffold pluginKey table w) as [w' r] eqn:Hrun.
    cbn [snd] in Hs. subst r.
    destruct (Scaffold_ok_inv _ _ _ _ Hrun) as (w1 & Hr1 & _ & _ & Htol).
    rewrite (frame_config _ _ _ (replaceImages_frame _ _ _ _ Hr1)) in Htol.
    split; [|exact Htol]. intros p Hp.
    apply (replaceImages_ok_ready _ _ _ Hr1).
    unfold table_paths in *. rewrite Hperm. exact Hp.
  - intros [Hready Htol].
    destruct (replaceImages_succeeds table w) as [w1 Hr1].
    { intros p Hp. apply Hready. unfold table_paths in *.
      rewrite <- Hperm. exact Hp. }
    rewrite Scaffold_eq, Hr1. cbv zeta.
    rewrite (frame_config _ _ _ (replaceImages_frame _ _ _ _ Hr1)).
    destruct (snd (EncodePluginConfig pluginKey MkConfig (w_config w))) as [e|];
      [|reflexivity].
    cbn in Htol. rewrite Htol. reflexivity.
Qed.
End StepSuccess.

Lemma Scaffold_succeeds_iff_witness :
  snd (Scaffold sample_key imageSubstitutions (sample_world no_fault StoreV2)) = inr tt /\
  ~ (forall p, p ∈ table_paths imageSubstitutions ->
       entry_ready (w_fs (sample_world_without "go.mod" StoreV2)) p).
Proof.
  split.
  - apply (Scaffold_succeeds_iff sample_key imageSubstitutions _ (reflexivity _)).
    split; [|reflexivity].
    intros q Hq. vm_compute in Hq.
    repeat (apply elem_of_cons in Hq as [->|Hq]); [ | | |inversion Hq];
      (split; [eexists; vm_compute; reflexivity|repeat split]).
  - intros Hready.
    assert (snd (Scaffold sample_key imageSubstitutions
                   (sample_world_without "go.mod" StoreV2)) = inr tt) as Hs.
    { apply (Scaffold_succeeds_iff sample_key imageSubstitutions _ (reflexivity _)).
      split; [exact Hready|reflexivity]. }
    vm_compute in Hs. discriminate.
Defined.

(** No replacement of the table holds a [$]: [ReplaceAll] expands
    nothing in them, which is why the model appends them as they are. *)
Lemma table_replacements_literal :
  forallb (fun j => negb (existsb (Byte.eqb "$"%byte) (B (toTag j)))) all_rules = true.
Proof. reflexivity. Qed.
